(** * NamedTensor: the named-dimension operations of [namedtensor/torch_base.py]

    A shallow embedding of class [NTorch] (dot, stack, cat, gather,
    multi_index_select, scatter_) over a positional tensor engine, and the
    properties of these operations. *)

From stdpp Require Import gmap strings list fin_maps pretty.
From Stdlib Require Import ZArith.

Set Warnings "-clear-no-such-hyp".

Open Scope string_scope.
Open Scope list_scope.
Open Scope nat_scope.

(** ** Python values and exceptions *)

(** A dimension name is a Python [str]. *)
Abbreviation name := string (only parsing).

(** The exceptions the code can raise. [RuntimeError] carries the formatted
    message of the [raise] statement; [AssertionError] is a failed [assert];
    [IndexError] a tuple or list index out of range; [KeyError] a failed dict
    lookup; [ValueError] a failed [tuple.index]; [TypeError] a value of the
    wrong kind. The remaining kinds are those the specification lists for the
    helper code of [torch_helpers]; [EngineError] is an error of the
    positional engine. *)
Inductive exn :=
| RuntimeError (msg : string)
| AssertionError
| IndexError
| KeyError (key : name)
| SchemaMismatchError
| DuplicateNameError
| RankMismatchError
| UnknownDimensionError (dim : name)
| TypeError
| ValueError
| EngineError (msg : string).

Inductive result (A : Type) :=
| Ok (a : A)
| Raise (e : exn).
Arguments Ok {A} a.
Arguments Raise {A} e.

#[global] Instance result_ret : MRet result := λ A, Ok.
#[global] Instance result_bind : MBind result := λ A B f m,
  match m with Ok a => f a | Raise e => Raise e end.

(** Python's ["%d" % n] for a non-negative int and ["%s" % s] for a str. *)
Definition fmt_d (n : nat) : string := pretty n.
Definition fmt_s (s : name) : string := s.

(** ** Raw tensors *)

(** A raw tensor of the engine: its shape and its entries in row-major
    order. Entries are integers. *)
Record Tensor := mkTensor { tshape : list nat; tdata : list Z }.

Definition numel (sh : list nat) : nat := foldr Nat.mul 1 sh.
Definition rank (t : Tensor) : nat := length (tshape t).

(** ** The positional engine

    The primitives of [torch] and [opt_einsum] the code calls. The
    operations of [NTorch] are written over any engine; [torch_ref], further
    down, is a reference model of the primitives. *)
Class Engine := {
  (** [oe.contract(t1, g1, ..., tn, gn, out, backend="torch")] *)
  contract : list (Tensor * list nat) → list nat → result Tensor;
  (** [t.permute] with the new order of the axes *)
  permute : Tensor → list nat → result Tensor;
  (** [torch.stack(ts, dim=d)] *)
  torch_stack : list Tensor → nat → result Tensor;
  (** [torch.cat(ts, dim=d)] *)
  torch_cat : list Tensor → nat → result Tensor;
  (** [t.gather(d, index)] *)
  torch_gather : Tensor → nat → Tensor → result Tensor;
  (** [t.scatter_(d, index, src)]: the contents of [t] afterwards, and
      whether the call raised *)
  torch_scatter_ : Tensor → nat → Tensor → Tensor → Tensor * result unit;
  (** [t.unsqueeze(d)] *)
  unsqueeze : Tensor → nat → result Tensor;
  (** [list(t)]: iteration over the first axis *)
  iter : Tensor → result (list Tensor);
  (** [t[tuple(idx)]] *)
  getitem : Tensor → Tensor → result Tensor
}.

(** ** Schema and NamedTensor *)

(** Modelled from the spec: the class [_Schema], which is missing. A schema
    is the ordered sequence of the names of the axes, the index of a name
    being the physical position of its axis. *)
Record Schema := mkSchema { _names : list name }.

(** Modelled from the spec: the class [NamedTensor] of [torch_helpers],
    which is missing. A NamedTensor pairs a raw tensor with its schema. *)
Record NamedTensor := mkNamedTensor { _tensor : Tensor; _schema : Schema }.

(** [tuple.index]: position of the first occurrence. *)
Fixpoint index_of `{EqDecision A} (n : A) (l : list A) : option nat :=
  match l with
  | [] => None
  | x :: l' => if decide (x = n) then Some 0 else S <$> index_of n l'
  end.

(** Modelled from the spec: [NamedTensor(tensor, names)] of [torch_helpers],
    which is missing. Construction checks that the names have no duplicate
    and that there is one name per axis of the tensor. *)
Definition NamedTensor_init (tensor : Tensor) (names : list name)
  : result NamedTensor :=
  if decide (NoDup names) then
    if decide (length names = rank tensor) then
      Ok (mkNamedTensor tensor (mkSchema names))
    else Raise RankMismatchError
  else Raise DuplicateNameError.

(** Modelled from the spec: the [values] property of a NamedTensor, its raw
    tensor. *)
Definition values (t : NamedTensor) : Tensor := _tensor t.

(** Modelled from the spec: the [shape] property of a NamedTensor, the
    ordered map from each name to the size of its axis. *)
Definition shape (t : NamedTensor) : list (name * nat) :=
  zip (_names (_schema t)) (tshape (_tensor t)).

(** Lookup in an ordered dict, kept as the list of its items. *)
Fixpoint assoc `{EqDecision K} {V} (k : K) (d : list (K * V)) : option V :=
  match d with
  | [] => None
  | (k', v) :: d' => if decide (k' = k) then Some v else assoc k d'
  end.

(** [t.shape[n]] *)
Definition shape_at (t : NamedTensor) (n : name) : result nat :=
  match assoc n (shape t) with
  | Some s => Ok s
  | None => Raise (KeyError n)
  end.

(** Modelled from the spec: [Schema.get], the physical position of a name;
    a name absent from the schema is an [UnknownDimensionError]. *)
Definition Schema_get (s : Schema) (n : name) : result nat :=
  match index_of n (_names s) with
  | Some i => Ok i
  | None => Raise (UnknownDimensionError n)
  end.

(** Modelled from the spec: [make_tuple] of [utils], which is missing. The
    contraction names are given as a tuple of names, which it returns. *)
Definition make_tuple (dims : list name) : list name := dims.

(** Python values that occur as the values of the [updates] dict of
    [_new]: a name, or a NamedTensor. *)
Inductive pyvalue :=
| PName (n : name)
| PTensor (t : NamedTensor).

Definition as_name (v : pyvalue) : result name :=
  match v with
  | PName n => Ok n
  | PTensor _ => Raise TypeError
  end.

(** [target] is a reordering of [names], as [_force_order] requires: every
    name of [target] is struck from [names] once, and nothing is left. *)
Fixpoint reorders (target names : list name) : bool :=
  match target with
  | [] => bool_decide (names = [])
  | n :: target' =>
      match index_of n names with
      | Some i => reorders target' (delete i names)
      | None => false
      end
  end.

(** In-place code runs on the object it mutates: a computation takes the
    NamedTensor [self] as it is before and returns it as it is after,
    together with the value or the exception of the computation. *)
Definition inplace (A : Type) : Type := NamedTensor → NamedTensor * result A.

#[global] Instance inplace_ret : MRet inplace := λ A a s, (s, Ok a).
#[global] Instance inplace_bind : MBind inplace := λ A B f m s,
  match m s with
  | (s', Ok a) => f a s'
  | (s', Raise e) => (s', Raise e)
  end.

(** Reads the object. *)
Definition self : inplace NamedTensor := λ s, (s, Ok s).
(** A computation that does not touch the object. *)
Definition lift {A} (r : result A) : inplace A := λ s, (s, r).
(** [self.values.op_(...)]: an in-place primitive on the raw tensor of the
    object. *)
Definition on_values (op : Tensor → Tensor * result unit) : inplace unit :=
  λ s, let '(t, r) := op (_tensor s) in (mkNamedTensor t (_schema s), r).

Section Ops.
Context `{Engine}.

(** Modelled from the spec: [NamedTensor._new] of [torch_helpers], which is
    missing. The new NamedTensor wraps [tensor] with the schema of [self],
    in which every name that is a key of [updates] is replaced by its
    value. A schema holds names: a replacement that is not a name is a
    [TypeError]. *)
Definition _new (self : NamedTensor) (tensor : Tensor)
  (updates : list (name * pyvalue)) : result NamedTensor :=
  names ← mapM (λ n, as_name (default (PName n) (assoc n updates)))
               (_names (_schema self));
  NamedTensor_init tensor names.

(** Modelled from the spec: [NamedTensor._force_order] of [torch_helpers],
    which is missing. The target must be a reordering of the names of
    [self], or the call fails with [SchemaMismatchError]; the raw tensor is
    permuted so that its axes follow the target. *)
Definition _force_order (self : NamedTensor) (names : list name)
  : result NamedTensor :=
  if reorders names (_names (_schema self)) then
    perm ← mapM (Schema_get (_schema self)) names;
    raw ← permute (values self) perm;
    NamedTensor_init raw names
  else Raise SchemaMismatchError.

(** ** [NTorch.tensor]

    Called as [cls.tensor] and [ntorch.tensor] on a raw tensor of the
    engine, the branch embedded here; the other branch builds the raw tensor
    from a Python literal first. *)

Definition ntorch_tensor (raw : Tensor) (names : list name)
  : result NamedTensor :=
  NamedTensor_init raw names.

(** ** [NTorch.dot] *)

(** The body of the inner loop of [dot]: one name of one operand. *)
Definition dot_name (st : gmap name nat * list name * list nat) (n : name)
  : gmap name nat * list name * list nat :=
  let '(ids, seen_names, group) := st in
  let '(ids, seen_names) :=
    if decide (ids !! n = None)
    then (<[n := size ids]> ids, seen_names ++ [n])
    else (ids, seen_names) in
  (ids, seen_names, group ++ [ids !!! n]).

(** The body of the outer loop: one operand. *)
Definition dot_tensor
  (st : gmap name nat * list name * list (Tensor * list nat)) (t : NamedTensor)
  : gmap name nat * list name * list (Tensor * list nat) :=
  let '(ids, seen_names, args) := st in
  let '(ids, seen_names, group) :=
    foldl dot_name (ids, seen_names, []) (_names (_schema t)) in
  (ids, seen_names, args ++ [(_tensor t, group)]).

Definition dot_ids (tensors : list NamedTensor)
  : gmap name nat * list name * list (Tensor * list nat) :=
  foldl dot_tensor (∅, [], []) tensors.

(** [for n in names: if n not in seen_names: raise RuntimeError(...)] *)
Fixpoint dot_check (names seen_names : list name) : result unit :=
  match names with
  | [] => Ok ()
  | n :: names' =>
      if decide (n ∈ seen_names) then dot_check names' seen_names
      else Raise (RuntimeError
                    ("No dimension " +:+ fmt_s n +:+ " to contract along"))
  end.

Definition dot (dims : list name) (tensors : list NamedTensor)
  : result NamedTensor :=
  let names := make_tuple dims in
  let '(ids, seen_names, args) := dot_ids tensors in
  let keep := filter (λ n, n ∉ names) seen_names in
  _ ← dot_check names seen_names;
  raw ← contract args ((λ n, ids !!! n) <$> keep);
  ntorch_tensor raw keep.

(** ** [NTorch.stack] *)

(** [for t in tensors[1:]: if t._schema._names != old_names: raise ...] *)
Fixpoint stack_check (rest : list NamedTensor) (old_names : list name)
  : result unit :=
  match rest with
  | [] => Ok ()
  | t :: rest' =>
      if decide (_names (_schema t) ≠ old_names)
      then Raise (RuntimeError
                    "Tensors to stack don't have matching dimension names")
      else stack_check rest' old_names
  end.

Definition stack (tensors : list NamedTensor) (name : name)
  : result NamedTensor :=
  match tensors with
  | [] => Raise IndexError
  | t0 :: rest =>
      let old_names := _names (_schema t0) in
      _ ← stack_check rest old_names;
      let to_stack := values <$> tensors in
      let old_names := name :: old_names in
      raw ← torch_stack to_stack 0;
      ntorch_tensor raw old_names
  end.

(** ** [NTorch.cat] *)

(** [for t in tensors[1:]: assert t._schema._names == tensors[0]._schema._names] *)
Fixpoint cat_check (rest : list NamedTensor) (names0 : list name)
  : result unit :=
  match rest with
  | [] => Ok ()
  | t :: rest' =>
      if decide (_names (_schema t) = names0)
      then cat_check rest' names0
      else Raise AssertionError
  end.

Definition cat (tensors : list NamedTensor) (dim : name)
  : result NamedTensor :=
  match tensors with
  | [] => Raise IndexError
  | t0 :: rest =>
      dim ← Schema_get (_schema t0) dim;
      _ ← cat_check rest (_names (_schema t0));
      raw ← torch_cat (values <$> tensors) dim;
      _new t0 raw []
  end.

(** ** [NTorch.gather] *)

Definition gather (input : NamedTensor) (dim : name) (index : NamedTensor)
  (index_dim : name) : result NamedTensor :=
  let outdim := index_dim in
  let indim := dim in
  let index_order :=
    (λ n, if decide (n ≠ indim) then n else outdim)
      <$> _names (_schema input) in
  b1 ← _force_order index index_order;
  dim ← Schema_get (_schema input) indim;
  raw ← torch_gather (values input) dim (values b1);
  _new input raw [(index_dim, PTensor index)].

(** ** [NTorch.multi_index_select] *)

(** [t[i]] on a tuple. *)
Definition tuple_get (l : list name) (i : nat) : result name :=
  match l !! i with
  | Some n => Ok n
  | None => Raise IndexError
  end.

(** [for dim in dims: if dim not in names: raise RuntimeError(...)] *)
Fixpoint mis_check (dims names : list name) : result unit :=
  match dims with
  | [] => Ok ()
  | dim :: dims' =>
      if decide (dim ∈ names) then mis_check dims' names
      else Raise (RuntimeError
                    (fmt_s dim +:+ " is not a dimension name in tensor"))
  end.

(** [names.index(dim)] *)
Definition tuple_index (names : list name) (dim : name) : result nat :=
  match index_of dim names with
  | Some i => Ok i
  | None => Raise ValueError
  end.

(** The loop over [enumerate(names)] that collects the axes not matched. *)
Definition mis_remaining (names : list name) (match_dims : list nat)
  : list nat * list name :=
  foldl (λ '(remaining_dims, remaining_names) '(i, name),
           if decide (i ∉ match_dims)
           then (remaining_dims ++ [i], remaining_names ++ [name])
           else (remaining_dims, remaining_names))
        ([], []) (zip (seq 0 (length names)) names).

Definition multi_index_select (tensor : NamedTensor) (dims : list name)
  (indices : NamedTensor) : result NamedTensor :=
  let indices_names := _names (_schema indices) in
  index_dim ← tuple_get indices_names 1;
  sz ← shape_at indices index_dim;
  if decide (length dims ≠ sz) then
    Raise (RuntimeError ("Size of elements in 'indices' should be "
                           +:+ fmt_d (length dims) +:+ ", got " +:+ fmt_d sz))
  else if decide (length (shape tensor) < length dims) then
    Raise (RuntimeError ("Size of 'dims' must be <= tensor dims ("
                           +:+ fmt_d (length (shape tensor)) +:+ "), got "
                           +:+ fmt_d (length dims)))
  else if decide (size (list_to_set dims : gset name) < length dims) then
    Raise (RuntimeError "Tuple 'dims' must contain unique names")
  else
    let names := _names (_schema tensor) in
    _ ← mis_check dims names;
    let vals := values tensor in
    match_dims ← mapM (tuple_index names) dims;
    let '(remaining_dims, remaining_names) :=
      mis_remaining names match_dims in
    let permute_idx := match_dims ++ remaining_dims in
    vals ← permute vals permute_idx;
    rows ← iter (values indices);
    tensors ← mapM (λ idx, v ← getitem vals idx; unsqueeze v 0) rows;
    tensors ← torch_cat tensors 0;
    elements_dim ← tuple_get indices_names 0;
    let new_names := elements_dim :: remaining_names in
    ntorch_tensor tensors new_names.

(** ** [NTorch.scatter_] *)

Definition scatter_ (dim : name) (index src : NamedTensor) (index_dim : name)
  : inplace unit :=
  input ← self;
  let indim := dim in
  let outdim := index_dim in
  let index_order :=
    (λ n, if decide (n ≠ indim) then n else outdim)
      <$> _names (_schema input) in
  index_force ← lift (_force_order index index_order);
  src_force ← lift (_force_order src index_order);
  dim ← lift (Schema_get (_schema input) indim);
  on_values (λ t, torch_scatter_ t dim (values index_force) (values src_force)).

End Ops.

(** ** A reference model of the engine

    Row-major tensors: the entry at a multi-index is found at its offset in
    the data; a tensor is built from a function of the multi-index by
    listing all multi-indices in row-major order. *)

Fixpoint all_indices (sh : list nat) : list (list nat) :=
  match sh with
  | [] => [[]]
  | n :: sh' => i ← seq 0 n; (λ idx, i :: idx) <$> all_indices sh'
  end.

Fixpoint offset (sh idx : list nat) : nat :=
  match sh, idx with
  | _ :: sh', i :: idx' => i * numel sh' + offset sh' idx'
  | _, _ => 0
  end.

Definition tget (t : Tensor) (idx : list nat) : Z :=
  nth (offset (tshape t) idx) (tdata t) 0%Z.

Definition tabulate (sh : list nat) (f : list nat → Z) : Tensor :=
  mkTensor sh (f <$> all_indices sh).

(** The [i]-th block of [k] entries. *)
Definition block (k i : nat) (data : list Z) : list Z :=
  take k (drop (i * k) data).

Definition size_at (t : Tensor) (d : nat) : nat := nth d (tshape t) 0.

(** [permute]: axis [j] of the result is axis [perm[j]] of the operand. *)
Definition ref_permute (t : Tensor) (perm : list nat) : result Tensor :=
  if decide (NoDup perm ∧ length perm = rank t ∧ Forall (λ p, p < rank t) perm)
  then
    Ok (tabulate ((λ p, size_at t p) <$> perm)
          (λ idx, tget t ((λ a, nth (default 0 (index_of a perm)) idx 0)
                            <$> seq 0 (rank t))))
  else Raise (EngineError "permute: not a permutation of the axes").

Definition ref_unsqueeze (t : Tensor) (d : nat) : result Tensor :=
  if decide (d ≤ rank t)
  then Ok (mkTensor (take d (tshape t) ++ 1 :: drop d (tshape t)) (tdata t))
  else Raise (EngineError "unsqueeze: dimension out of range").

(** [cat]: the operands agree on every axis but [d]; the blocks of the
    operands that share the leading multi-index follow each other. *)
Definition ref_cat (ts : list Tensor) (d : nat) : result Tensor :=
  match ts with
  | [] => Raise (EngineError "cat: expected a non-empty list of tensors")
  | t0 :: _ =>
      if decide (d < rank t0 ∧
                 Forall (λ t, <[d := 0]> (tshape t) = <[d := 0]> (tshape t0)) ts)
      then
        Ok (mkTensor
              (<[d := sum_list ((λ t, size_at t d) <$> ts)]> (tshape t0))
              (o ← seq 0 (numel (take d (tshape t0)));
               t ← ts;
               block (numel (drop d (tshape t))) o (tdata t)))
      else Raise (EngineError "cat: sizes of tensors must match")
  end.

Definition ref_stack (ts : list Tensor) (d : nat) : result Tensor :=
  match ts with
  | [] => Raise (EngineError "stack: expected a non-empty list of tensors")
  | t0 :: _ =>
      if decide (Forall (λ t, tshape t = tshape t0) ts)
      then us ← mapM (λ t, ref_unsqueeze t d) ts; ref_cat us d
      else Raise (EngineError "stack: expects each tensor to be equal size")
  end.

(** The conditions of [gather] and [scatter_] on the index tensor: same
    rank, no larger than [t] off the axis [d], entries within axis [d]. *)
Definition index_fits (t : Tensor) (d : nat) (index : Tensor) : Prop :=
  d < rank t ∧ rank index = rank t ∧
  Forall (λ k, k = d ∨ size_at index k ≤ size_at t k) (seq 0 (rank t)) ∧
  Forall (λ z, (0 ≤ z < Z.of_nat (size_at t d))%Z)
         (tget index <$> all_indices (tshape index)).

(** The multi-index [idx] with its component [d] replaced by the entry of
    [index] at [idx]. *)
Definition through (index : Tensor) (d : nat) (idx : list nat) : list nat :=
  <[d := Z.to_nat (tget index idx)]> idx.

Definition ref_gather (t : Tensor) (d : nat) (index : Tensor)
  : result Tensor :=
  if decide (index_fits t d index)
  then Ok (tabulate (tshape index) (λ idx, tget t (through index d idx)))
  else Raise (EngineError "gather: index does not fit").

Definition ref_scatter_ (t : Tensor) (d : nat) (index src : Tensor)
  : Tensor * result unit :=
  if decide (index_fits t d index ∧ rank src = rank t ∧
             Forall (λ k, size_at index k ≤ size_at src k) (seq 0 (rank t)))
  then
    (mkTensor (tshape t)
       (foldl (λ data idx,
                 <[offset (tshape t) (through index d idx) := tget src idx]>
                   data)
              (tdata t) (all_indices (tshape index))),
     Ok ())
  else (t, Raise (EngineError "scatter_: index or src does not fit")).

Definition ref_iter (t : Tensor) : result (list Tensor) :=
  match tshape t with
  | [] => Raise (EngineError "iteration over a 0-d tensor")
  | n :: sh => Ok ((λ i, mkTensor sh (block (numel sh) i (tdata t)))
                     <$> seq 0 n)
  end.

(** A Python int used as an index on an axis of size [n]: negative indices
    count from the end. *)
Definition norm_index (n : nat) (z : Z) : option nat :=
  if decide (0 ≤ z < Z.of_nat n)%Z then Some (Z.to_nat z)
  else if decide (- Z.of_nat n ≤ z < 0)%Z then Some (Z.to_nat (Z.of_nat n + z))
  else None.

(** [tuple(idx)] for a 1-d integer tensor: its entries. Tuples of tensors
    of higher rank (advanced indexing) are outside this model. *)
Definition ref_tuple (idx : Tensor) : result (list Z) :=
  rows ← ref_iter idx;
  mapM (λ r, match tshape r, tdata r with
             | [], [z] => Ok z
             | _, _ => Raise (EngineError "index: unsupported index tensor")
             end) rows.

(** [t[i1, ..., ik]]: the sub-tensor at the leading multi-index. *)
Definition ref_getitem (t idx : Tensor) : result Tensor :=
  zs ← ref_tuple idx;
  if decide (length zs ≤ rank t) then
    match mapM (λ '(n, z), norm_index n z) (zip (tshape t) zs) with
    | Some ns =>
        let sh := drop (length zs) (tshape t) in
        Ok (mkTensor sh (take (numel sh) (drop (offset (tshape t) ns) (tdata t))))
    | None => Raise (EngineError "index out of range")
    end
  else Raise (EngineError "too many indices for tensor").

(** The distinct elements of a list, in the order of first occurrence. *)
Fixpoint distinct `{EqDecision A} (l : list A) : list A :=
  match l with
  | [] => []
  | x :: l' => x :: filter (λ y, y ≠ x) (distinct l')
  end.

(** Einstein summation: the entry of the result at an assignment of the
    output ids is the sum, over all assignments of the other ids, of the
    product of the operands' entries. *)
Definition ref_contract (operands : list (Tensor * list nat)) (out : list nat)
  : result Tensor :=
  let sizes := '(t, g) ← operands; zip g (tshape t) in
  let size_of := λ i, default 0 (assoc i sizes) in
  if decide (operands ≠ [] ∧
             Forall (λ '(t, g), length g = rank t) operands ∧
             Forall (λ '(i, s), assoc i sizes = Some s) sizes ∧
             NoDup out ∧ Forall (λ i, i ∈ sizes.*1) out)
  then
    let summed := filter (λ i, i ∉ out) (distinct sizes.*1) in
    Ok (tabulate (size_of <$> out)
          (λ oidx,
             foldr Z.add 0%Z
               ((λ sidx,
                   let env := zip (out ++ summed) (oidx ++ sidx) in
                   foldr Z.mul 1%Z
                     ((λ '(t, g),
                         tget t ((λ i, default 0 (assoc i env)) <$> g))
                        <$> operands))
                  <$> all_indices (size_of <$> summed))))
  else Raise (EngineError "contract: operands do not match").

#[global] Instance torch_ref : Engine := {|
  contract := ref_contract;
  permute := ref_permute;
  torch_stack := ref_stack;
  torch_cat := ref_cat;
  torch_gather := ref_gather;
  torch_scatter_ := ref_scatter_;
  unsqueeze := ref_unsqueeze;
  iter := ref_iter;
  getitem := ref_getitem
|}.

(** ** Definitions used in the statements *)

(** The part of [dot_name] that assigns ids. *)
Definition assign (st : gmap name nat * list name) (n : name)
  : gmap name nat * list name :=
  if decide (st.1 !! n = None)
  then (<[n := size st.1]> st.1, st.2 ++ [n])
  else st.

(** Ids number the seen names in order. *)
Definition numbered (ids : gmap name nat) (seen_names : list name) : Prop :=
  size ids = length seen_names ∧
  ∀ n i, ids !! n = Some i ↔ seen_names !! i = Some n.

(** The names of all operands, in argument order and schema order. *)
Definition all_names (tensors : list NamedTensor) : list name :=
  t ← tensors; _names (_schema t).

(** The operands [dot] hands to the backend, and the sizes of their ids. *)
Definition dot_operands (ids : gmap name nat) (tensors : list NamedTensor)
  : list (Tensor * list nat) :=
  (λ t, (_tensor t, (λ n, ids !!! n) <$> _names (_schema t))) <$> tensors.

Definition dot_sizes (ids : gmap name nat) (tensors : list NamedTensor)
  : list (nat * nat) :=
  '(t, g) ← dot_operands ids tensors; zip g (tshape t).

(** Every operand of [rest] has the name sequence of [t0]. *)
Definition same_names (t0 : NamedTensor) (rest : list NamedTensor) : Prop :=
  Forall (λ t, _names (_schema t) = _names (_schema t0)) rest.

(** The invariant of a NamedTensor: distinct names, one per axis, and as
    many entries as the shape says. *)
Definition wf (t : NamedTensor) : Prop :=
  NoDup (_names (_schema t)) ∧
  length (_names (_schema t)) = rank (_tensor t) ∧
  length (tdata (_tensor t)) = numel (tshape (_tensor t)).

(** Equal names have equal sizes across the operands. *)
Definition consistent (tensors : list NamedTensor) : Prop :=
  ∀ t1 t2 n s1 s2,
    t1 ∈ tensors → t2 ∈ tensors →
    (n, s1) ∈ shape t1 → (n, s2) ∈ shape t2 → s1 = s2.

(** The names of [input] with [dim] replaced by [index_dim]: the order to
    which [gather] and [scatter_] force their index operands. *)
Definition index_order (input : NamedTensor) (dim index_dim : name)
  : list name :=
  (λ n, if decide (n ≠ dim) then n else index_dim) <$> _names (_schema input).

(** The standard product of an (n, m) matrix and an (m, p) matrix: the
    entry at (i, j) is the sum over k of a[i, k] * b[k, j]. *)
Definition matmul (a b : Tensor) : Tensor :=
  match tshape a, tshape b with
  | [n; m], [_; p] =>
      tabulate [n; p]
        (λ idx, match idx with
                | [i; j] =>
                    foldr Z.add 0%Z
                      ((λ k, (tget a [i; k] * tget b [k; j])%Z) <$> seq 0 m)
                | _ => 0%Z
                end)
  | _, _ => mkTensor [] []
  end.

(** The errors of the checks of [multi_index_select]. *)
Definition size_error (expected got : nat) : exn :=
  RuntimeError ("Size of elements in 'indices' should be "
                  +:+ fmt_d expected +:+ ", got " +:+ fmt_d got).
Definition rank_error (tensor_dims ndims : nat) : exn :=
  RuntimeError ("Size of 'dims' must be <= tensor dims ("
                  +:+ fmt_d tensor_dims +:+ "), got " +:+ fmt_d ndims).
Definition duplicate_error : exn :=
  RuntimeError "Tuple 'dims' must contain unique names".
Definition unknown_error (dim : name) : exn :=
  RuntimeError (fmt_s dim +:+ " is not a dimension name in tensor").

(** ** Examples *)

Definition ex_X : NamedTensor :=
  mkNamedTensor (mkTensor [2; 3] [1; 2; 3; 4; 5; 6]%Z) (mkSchema ["i"; "k"]).
Definition ex_Y : NamedTensor :=
  mkNamedTensor (mkTensor [3; 4] [1; 0; 0; 1; 0; 1; 0; 2; 0; 0; 1; 3]%Z)
    (mkSchema ["k"; "j"]).
Definition ex_XY : NamedTensor :=
  mkNamedTensor (mkTensor [2; 4] [1; 2; 3; 14; 4; 5; 6; 32]%Z)
    (mkSchema ["i"; "j"]).
Definition ex_A : NamedTensor :=
  mkNamedTensor (mkTensor [2; 3] [1; 2; 3; 4; 5; 6]%Z) (mkSchema ["a"; "b"]).
Definition ex_B : NamedTensor :=
  mkNamedTensor (mkTensor [3; 2] [7; 8; 9; 10; 11; 12]%Z)
    (mkSchema ["b"; "a"]).
Definition ex_index : NamedTensor :=
  mkNamedTensor (mkTensor [2; 1] [2; 0]%Z) (mkSchema ["i"; "c"]).
Definition ex_src : NamedTensor :=
  mkNamedTensor (mkTensor [2; 1] [70; 80]%Z) (mkSchema ["i"; "c"]).
Definition ex_rows : NamedTensor :=
  mkNamedTensor (mkTensor [2; 1] [1; 0]%Z) (mkSchema ["e"; "d"]).
Definition ex_two_empty_rows : NamedTensor :=
  mkNamedTensor (mkTensor [2; 0] []) (mkSchema ["e"; "d"]).
Definition ex_one_empty_row : NamedTensor :=
  mkNamedTensor (mkTensor [1; 0] []) (mkSchema ["e"; "d"]).

(** ** Further definitions used in the statements *)


(** ** Further primitives of the engine *)

Class EngineX := {
  (** [t.narrow(d, start, length)] *)
  torch_narrow : Tensor → nat → Z → Z → result Tensor;
  (** [torch.nonzero(t)] *)
  torch_nonzero : Tensor → result Tensor
}.

Section OpsX.
Context `{Engine} `{EngineX}.

(** ** [NTorch.narrow] *)

Definition narrow (tensor1 : NamedTensor) (dim : name) (start end_ : Z)
  : result NamedTensor :=
  let name := dim in
  d ← Schema_get (_schema tensor1) name;
  raw ← torch_narrow (_tensor tensor1) d start end_;
  _new tensor1 raw [].

(** ** [NTorch.nonzero] *)

Definition nonzero_names : list name := ["elementsdim"; "inputdims"].

Definition nonzero (tensor : NamedTensor) (names : list name)
  : result NamedTensor :=
  indices ← torch_nonzero (values tensor);
  NamedTensor_init indices names.

End OpsX.

(** ** The reference model of the further primitives *)

(** The start of a slice on an axis of size [n]: a start below zero counts
    from the end, and a start equal to [n] is the empty tail. *)
Definition norm_start (n : nat) (start : Z) : option nat :=
  if decide (start = Z.of_nat n) then Some n else norm_index n start.

(** [narrow]: on axis [d], the [len] entries from [start] on. *)
Definition ref_narrow (t : Tensor) (d : nat) (start len : Z) : result Tensor :=
  if decide (d < rank t) then
    match norm_start (size_at t d) start with
    | Some s =>
        if decide (0 ≤ len ∧ Z.of_nat s + len ≤ Z.of_nat (size_at t d))%Z then
          let inner := numel (drop (S d) (tshape t)) in
          Ok (mkTensor (<[d := Z.to_nat len]> (tshape t))
                (o ← seq 0 (numel (take d (tshape t)));
                 take (Z.to_nat len * inner)
                      (drop ((o * size_at t d + s) * inner) (tdata t))))
        else Raise (EngineError "narrow: start + length exceeds dimension size")
    | None => Raise (EngineError "narrow: start out of range")
    end
  else Raise (EngineError "narrow: dimension out of range").

(** [nonzero]: the multi-indices of the entries that are not zero, in
    row-major order, one per row. *)
Definition ref_nonzero (t : Tensor) : result Tensor :=
  let nz := filter (λ idx, tget t idx ≠ 0%Z) (all_indices (tshape t)) in
  Ok (mkTensor [length nz; rank t] (idx ← nz; Z.of_nat <$> idx)).

#[global] Instance torch_refX : EngineX := {|
  torch_narrow := ref_narrow;
  torch_nonzero := ref_nonzero
|}.

(** * Properties *)

Ltac by_decide := apply (bool_decide_unpack _); vm_compute; exact I.

(** ** The result monad *)

Lemma bind_Ok {A B} (m : result A) (f : A → result B) b :
  m ≫= f = Ok b ↔ ∃ a, m = Ok a ∧ f a = Ok b.
Proof.
  destruct m as [a|e]; simpl.
  - split; [eauto | by intros (? & [= ->] & ?)].
  - split; [done | by intros (? & ? & ?)].
Qed.

Lemma NamedTensor_init_Ok raw names r :
  NamedTensor_init raw names = Ok r ↔
  NoDup names ∧ length names = rank raw ∧ r = mkNamedTensor raw (mkSchema names).
Proof.
  unfold NamedTensor_init. repeat case_decide; naive_solver.
Qed.

(** ** Lists *)

Lemma filter_all {A} (P : A → Prop) `{∀ x, Decision (P x)} (l : list A) :
  Forall P l → filter P l = l.
Proof.
  induction 1 as [|x l Hx _ IH]; [done|].
  by rewrite filter_cons_True, IH.
Qed.

Lemma elem_of_distinct `{EqDecision A} (l : list A) x :
  x ∈ distinct l ↔ x ∈ l.
Proof.
  induction l as [|y l IH]; simpl; [done|].
  rewrite !elem_of_cons, list_elem_of_filter, IH.
  destruct (decide (x = y)); naive_solver.
Qed.

Lemma NoDup_distinct `{EqDecision A} (l : list A) : NoDup (distinct l).
Proof.
  induction l as [|y l IH]; simpl; [constructor|].
  constructor; [|by apply NoDup_filter].
  rewrite list_elem_of_filter. naive_solver.
Qed.

Lemma fmap_list_bind {A B C} (f : B → C) (g : A → list B) (l : list A) :
  f <$> (l ≫= g) = l ≫= λ x, f <$> g x.
Proof.
  induction l as [|x l IH]; [done|].
  by rewrite !bind_cons, fmap_app, IH.
Qed.

Lemma assoc_Some_elem `{EqDecision K} {V} (k : K) (v : V) d :
  assoc k d = Some v → (k, v) ∈ d.
Proof.
  induction d as [|[k' v'] d IH]; [done|]. cbn [assoc].
  case_decide as Hk.
  - intros [= ->]. subst. apply list_elem_of_here.
  - intros Hd. apply list_elem_of_further. by apply IH.
Qed.

Lemma assoc_is_Some `{EqDecision K} {V} (k : K) (v : V) d :
  (k, v) ∈ d → is_Some (assoc k d).
Proof.
  induction d as [|[k' v'] d IH]; [by intros ?%elem_of_nil|].
  intros Hin. cbn [assoc]. case_decide as Hk; [eauto|].
  apply elem_of_cons in Hin as [[= -> ->]|Hin]; [done|by apply IH].
Qed.

Lemma index_of_Some `{EqDecision A} (x : A) l i :
  index_of x l = Some i → l !! i = Some x.
Proof.
  revert i. induction l as [|y l IH]; intros i; [done|]. cbn [index_of].
  case_decide as Hy.
  - by intros [= <-]; subst.
  - destruct (index_of x l) as [j|]; [|done]. intros [= <-]. by apply IH.
Qed.

Lemma index_of_None `{EqDecision A} (x : A) l :
  index_of x l = None ↔ x ∉ l.
Proof.
  induction l as [|y l IH]; cbn [index_of].
  - split; [intros _; apply not_elem_of_nil|done].
  - rewrite not_elem_of_cons. case_decide as Hy.
    + split; [done|]. by intros [? _].
    + destruct (index_of x l); split; try done.
      * intros [_ Hx]. by apply IH in Hx.
      * intros _. split; [done|]. by apply IH.
Qed.

(** ** Id assignment in [dot] *)

Lemma numbered_empty : numbered ∅ [].
Proof. split; [done|]. intros n i. by rewrite lookup_empty. Qed.

Lemma numbered_elem ids seen n :
  numbered ids seen → n ∈ seen ↔ is_Some (ids !! n).
Proof.
  intros [_ Hn]. rewrite list_elem_of_lookup. unfold is_Some.
  split; intros [i Hi]; exists i; by apply Hn.
Qed.

Lemma numbered_NoDup ids seen : numbered ids seen → NoDup seen.
Proof.
  intros [_ Hn]. apply NoDup_alt. intros i j n Hi Hj.
  apply Hn in Hi, Hj. congruence.
Qed.

Lemma numbered_inj ids seen n1 n2 :
  numbered ids seen → n1 ∈ seen → n2 ∈ seen →
  ids !!! n1 = ids !!! n2 → n1 = n2.
Proof.
  intros Hnum H1 H2.
  apply (numbered_elem _ _ _ Hnum) in H1 as [i1 Hi1].
  apply (numbered_elem _ _ _ Hnum) in H2 as [i2 Hi2].
  rewrite (lookup_total_correct _ _ _ Hi1), (lookup_total_correct _ _ _ Hi2).
  intros <-. destruct Hnum as [_ Hn]. apply Hn in Hi1, Hi2. congruence.
Qed.

Lemma numbered_lookup_total ids seen n i :
  numbered ids seen → seen !! i = Some n → ids !!! n = i.
Proof. intros [_ Hn] Hi. apply lookup_total_correct. by apply Hn. Qed.

Lemma assign_numbered ids seen n :
  numbered ids seen →
  numbered (assign (ids, seen) n).1 (assign (ids, seen) n).2.
Proof.
  intros Hnum. unfold assign; simpl. case_decide as Hn; [|done].
  destruct Hnum as [Hsz Hids]. simpl. split.
  - rewrite map_size_insert_None, length_app by done. simpl. lia.
  - intros m i. destruct (decide (n = m)) as [<-|Hne].
    + rewrite lookup_insert_eq, Hsz. split.
      * intros [= <-]. by rewrite lookup_app_r, Nat.sub_diag.
      * intros Hi. f_equal.
        destruct (decide (i < length seen)) as [Hlt|Hge].
        -- rewrite lookup_app_l in Hi by done. apply Hids in Hi. congruence.
        -- apply lookup_lt_Some in Hi. rewrite length_app in Hi. simpl in Hi. lia.
    + rewrite lookup_insert_ne, Hids by done. split.
      * intros Hi. by apply lookup_app_l_Some.
      * intros Hi. apply lookup_app_Some in Hi as [Hi|[_ Hi]]; [done|].
        apply list_lookup_singleton_Some in Hi. naive_solver.
Qed.

Lemma assign_seen ids seen n :
  numbered ids seen →
  (assign (ids, seen) n).2 = seen ++ filter (λ m, m ∉ seen) [n].
Proof.
  intros Hnum. unfold assign; simpl.
  rewrite filter_cons, filter_nil.
  pose proof (numbered_elem _ _ n Hnum) as Hel.
  destruct (decide (n ∈ seen)) as [Hin|Hout].
  - rewrite decide_False by (apply Hel in Hin as [? ?]; congruence).
    rewrite decide_False by naive_solver. by rewrite app_nil_r.
  - rewrite decide_True; [by rewrite decide_True|].
    apply eq_None_not_Some. by rewrite <-Hel.
Qed.

Lemma assign_lookup ids seen n :
  is_Some ((assign (ids, seen) n).1 !! n).
Proof.
  unfold assign; simpl. case_decide as Hn; simpl.
  - rewrite lookup_insert_eq. eauto.
  - by apply not_eq_None_Some.
Qed.

Lemma assign_mono ids seen n : ids ⊆ (assign (ids, seen) n).1.
Proof.
  unfold assign; simpl. case_decide; simpl; [|done].
  by apply insert_subseteq.
Qed.

Lemma foldl_assign_numbered l ids seen :
  numbered ids seen →
  numbered (foldl assign (ids, seen) l).1 (foldl assign (ids, seen) l).2.
Proof.
  revert ids seen. induction l as [|n l IH]; intros ids seen Hnum; [done|].
  simpl. pose proof (assign_numbered _ _ n Hnum) as Hnum'.
  destruct (assign (ids, seen) n) as [ids' seen']. by apply IH.
Qed.

Lemma foldl_assign_mono l ids seen : ids ⊆ (foldl assign (ids, seen) l).1.
Proof.
  revert ids seen. induction l as [|n l IH]; intros ids seen; [done|].
  simpl. pose proof (assign_mono ids seen n) as Hm.
  destruct (assign (ids, seen) n) as [ids' seen']. etrans; [done|apply IH].
Qed.

Lemma foldl_assign_lookup l ids seen n :
  n ∈ l → is_Some ((foldl assign (ids, seen) l).1 !! n).
Proof.
  revert ids seen. induction l as [|m l IH]; intros ids seen Hn.
  { by apply elem_of_nil in Hn. }
  cbn [foldl]. apply elem_of_cons in Hn as [->|Hn].
  - pose proof (assign_lookup ids seen m) as [i Hi].
    destruct (assign (ids, seen) m) as [ids1 seen1]. cbn [fst] in Hi.
    exists i. by eapply lookup_weaken; [|apply foldl_assign_mono].
  - destruct (assign (ids, seen) m) as [ids1 seen1]. by apply IH.
Qed.

Lemma filter_distinct_cons (seen : list name) n l :
  filter (λ m, m ∉ seen) (distinct (n :: l)) =
  filter (λ m, m ∉ seen) [n] ++
  filter (λ m, m ∉ seen ++ filter (λ m, m ∉ seen) [n]) (distinct l).
Proof.
  simpl. rewrite filter_cons, (filter_cons _ n []), filter_nil.
  destruct (decide (n ∉ seen)) as [Hn|Hn]; simpl.
  - f_equal. rewrite list_filter_filter. apply list_filter_iff.
    intros m. rewrite not_elem_of_app, list_elem_of_singleton. naive_solver.
  - rewrite list_filter_filter. apply list_filter_iff.
    intros m. rewrite app_nil_r. split; [naive_solver|].
    intros Hm. split; [done|]. intros ->. by apply Hn.
Qed.

Lemma foldl_assign_seen l ids seen :
  numbered ids seen →
  (foldl assign (ids, seen) l).2 =
  seen ++ filter (λ m, m ∉ seen) (distinct l).
Proof.
  revert ids seen. induction l as [|n l IH]; intros ids seen Hnum.
  - simpl. by rewrite filter_nil, app_nil_r.
  - rewrite filter_distinct_cons. simpl.
    pose proof (assign_numbered _ _ n Hnum) as Hnum'.
    pose proof (assign_seen _ _ n Hnum) as Hs.
    destruct (assign (ids, seen) n) as [ids' seen']. simpl in *.
    rewrite (IH _ _ Hnum'), Hs. by rewrite <-app_assoc.
Qed.

(** [dot_name] assigns the id and appends it to the group. *)
Lemma dot_name_assign ids seen group n :
  dot_name (ids, seen, group) n =
  (assign (ids, seen) n, group ++ [(assign (ids, seen) n).1 !!! n]).
Proof.
  unfold dot_name, assign; simpl. by case_decide.
Qed.

Lemma foldl_dot_name l ids seen group :
  foldl dot_name (ids, seen, group) l =
  (foldl assign (ids, seen) l,
   group ++ ((λ n, (foldl assign (ids, seen) l).1 !!! n) <$> l)).
Proof.
  revert ids seen group.
  induction l as [|n l IH]; intros ids seen group; cbn [foldl fmap list_fmap].
  - by rewrite app_nil_r.
  - rewrite dot_name_assign.
    pose proof (assign_lookup ids seen n) as [i Hi].
    destruct (assign (ids, seen) n) as [ids' seen'] eqn:Hst.
    cbn [fst snd] in *.
    rewrite IH. f_equal. rewrite <-app_assoc. cbn [app]. do 2 f_equal.
    rewrite (lookup_total_correct _ _ _ Hi). symmetry.
    apply lookup_total_correct.
    by eapply lookup_weaken; [|apply foldl_assign_mono].
Qed.

Lemma foldl_dot_tensor tensors ids seen args :
  foldl dot_tensor (ids, seen, args) tensors =
  (foldl assign (ids, seen) (all_names tensors),
   args ++ ((λ t, (_tensor t,
                   (λ n, (foldl assign (ids, seen) (all_names tensors)).1 !!! n)
                     <$> _names (_schema t)))
              <$> tensors)).
Proof.
  revert ids seen args.
  induction tensors as [|t ts IH]; intros ids seen args;
    cbn [foldl fmap list_fmap].
  - by rewrite app_nil_r.
  - unfold all_names. rewrite bind_cons, foldl_app. fold (all_names ts).
    unfold dot_tensor at 2. rewrite foldl_dot_name.
    pose proof (λ n, foldl_assign_lookup (_names (_schema t)) ids seen n)
      as Hl.
    destruct (foldl assign (ids, seen) (_names (_schema t)))
      as [ids' seen'] eqn:Hst. cbn [fst snd] in *.
    rewrite IH. f_equal. rewrite <-app_assoc. cbn [app]. do 3 f_equal.
    apply list_fmap_ext. intros k n Hn.
    apply list_elem_of_lookup_2, Hl in Hn as [i Hi].
    rewrite (lookup_total_correct _ _ _ Hi). symmetry.
    apply lookup_total_correct.
    by eapply lookup_weaken; [|apply foldl_assign_mono].
Qed.

(** The state of [dot] after its loops. *)
Lemma dot_ids_spec tensors :
  ∃ ids,
    dot_ids tensors =
      (ids, distinct (all_names tensors),
       (λ t, (_tensor t, (λ n, ids !!! n) <$> _names (_schema t)))
         <$> tensors) ∧
    numbered ids (distinct (all_names tensors)).
Proof.
  unfold dot_ids. rewrite foldl_dot_tensor. simpl.
  pose proof (foldl_assign_numbered (all_names tensors) _ _ numbered_empty)
    as Hnum.
  pose proof (foldl_assign_seen (all_names tensors) _ _ numbered_empty)
    as Hseen.
  destruct (foldl assign (∅, []) (all_names tensors)) as [ids seen].
  simpl in *. rewrite filter_all in Hseen
    by (apply Forall_forall; intros; apply not_elem_of_nil).
  subst seen. by exists ids.
Qed.

Lemma dot_check_Ok names seen :
  dot_check names seen = Ok () ↔ Forall (λ n, n ∈ seen) names.
Proof.
  induction names as [|n names IH]; simpl.
  - split; [constructor|done].
  - rewrite Forall_cons. case_decide; [naive_solver|].
    split; [done|naive_solver].
Qed.

(** The first name of [names] that no operand has makes [dot_check] raise. *)
Lemma dot_check_spec names seen :
  (Forall (λ n, n ∈ seen) names ∧ dot_check names seen = Ok ()) ∨
  (∃ pre m post,
     names = pre ++ m :: post ∧ Forall (λ n, n ∈ seen) pre ∧ (m ∉ seen) ∧
     dot_check names seen =
       Raise (RuntimeError ("No dimension " +:+ m +:+ " to contract along"))).
Proof.
  induction names as [|n names IH]; simpl.
  - left. by split.
  - case_decide as Hn.
    + destruct IH as [[IH ->]|(pre & m & post & -> & Hpre & Hm & ->)].
      * left. split; [by constructor|done].
      * right. exists (n :: pre), m, post. split_and!; try done.
        by constructor.
    + right. exists [], n, names. by split_and!.
Qed.

Lemma elem_of_all_names tensors n :
  n ∈ all_names tensors ↔ ∃ t, t ∈ tensors ∧ n ∈ _names (_schema t).
Proof. unfold all_names. rewrite list_elem_of_bind. naive_solver. Qed.

Lemma all_names_fmap tensors :
  all_names tensors = ((λ t, _names (_schema t)) <$> tensors) ≫= id.
Proof. unfold all_names. by rewrite list_fmap_bind. Qed.

(** ** [dot] *)

Lemma dot_Ok `{Engine} dims tensors r :
  dot dims tensors = Ok r →
  _names (_schema r) =
    filter (λ n, n ∉ dims) (distinct (all_names tensors)).
Proof.
  unfold dot, make_tuple.
  destruct (dot_ids_spec tensors) as (ids & -> & _).
  intros Hr. apply bind_Ok in Hr as (_ & _ & Hr).
  apply bind_Ok in Hr as (raw & _ & Hr).
  apply NamedTensor_init_Ok in Hr as (_ & _ & ->). done.
Qed.

(** [dot] after its loops, in terms of the first-seen order of the names. *)
Lemma dot_unfold `{Engine} dims tensors :
  ∃ ids, numbered ids (distinct (all_names tensors)) ∧
    dot dims tensors =
      (let seen := distinct (all_names tensors) in
       let keep := filter (λ n, n ∉ dims) seen in
       _ ← dot_check dims seen;
       raw ← contract (dot_operands ids tensors)
                      ((λ n, ids !!! n) <$> keep);
       ntorch_tensor raw keep).
Proof.
  destruct (dot_ids_spec tensors) as (ids & Hids & Hnum).
  exists ids. split; [done|]. unfold dot, make_tuple. by rewrite Hids.
Qed.

(** ** [dot] returns on the reference engine *)

Section DotReturns.
Context (tensors : list NamedTensor) (ids : gmap name nat).
Hypothesis Hnum : numbered ids (distinct (all_names tensors)).

Local Abbreviation operands := (dot_operands ids tensors).
Local Abbreviation sizes := (dot_sizes ids tensors).

Lemma sizes_unfold :
  sizes = t ← tensors;
          zip_with (λ n s, (ids !!! n, s)) (_names (_schema t))
            (tshape (_tensor t)).
Proof.
  unfold dot_sizes, dot_operands. rewrite list_fmap_bind.
  apply Forall_bind_ext, Forall_forall. intros t _. cbn.
  apply (zip_with_fmap_l pair).
Qed.

Lemma elem_of_sizes i s :
  (i, s) ∈ sizes ↔
  ∃ t n, t ∈ tensors ∧ (n, s) ∈ shape t ∧ i = ids !!! n.
Proof.
  rewrite sizes_unfold, list_elem_of_bind. unfold shape, zip. split.
  - intros (t & Hin & Ht). exists t.
    apply elem_of_lookup_zip_with in Hin as (k & n & s' & [= -> ->] & Hn & Hs).
    exists n. split_and!; [done| |done].
    by eapply (elem_of_lookup_zip_with_2 pair).
  - intros (t & n & Ht & Hin & ->). exists t. split; [|done].
    apply elem_of_lookup_zip_with in Hin as (k & n' & s' & [= -> ->] & Hn & Hs).
    by eapply (elem_of_lookup_zip_with_2 (λ n s, (ids !!! n, s))).
Qed.

Lemma shape_name_seen t n s :
  t ∈ tensors → (n, s) ∈ shape t → n ∈ distinct (all_names tensors).
Proof.
  intros Ht Hin. apply elem_of_distinct, elem_of_all_names.
  exists t. split; [done|]. by eapply elem_of_zip_l.
Qed.

Lemma ref_contract_returns (keep : list name) :
  tensors ≠ [] → Forall wf tensors → consistent tensors →
  NoDup keep → keep ⊆ distinct (all_names tensors) →
  ∃ raw, ref_contract operands ((λ n, ids !!! n) <$> keep) = Ok raw ∧
         rank raw = length keep.
Proof.
  intros Hne Hwf Hcons Hnd Hsub. unfold ref_contract.
  change (dot_operands ids tensors ≫= λ '(t, g), zip g (tshape t))
    with (dot_sizes ids tensors).
  rewrite decide_True.
  { eexists. split; [reflexivity|].
    unfold rank, tabulate. cbn [tshape]. by rewrite !length_fmap. }
  split_and!.
  - unfold dot_operands. by destruct tensors.
  - unfold dot_operands. apply Forall_fmap. eapply Forall_impl; [exact Hwf|].
    intros t (_ & Hlen & _). cbn. by rewrite length_fmap.
  - apply Forall_forall. intros [i s] Hin.
    destruct (assoc_is_Some _ _ _ Hin) as [s' Hs']. rewrite Hs'. f_equal.
    apply assoc_Some_elem in Hs'.
    apply elem_of_sizes in Hin as (t & n & Ht & Hn & ->).
    apply elem_of_sizes in Hs' as (t' & n' & Ht' & Hn' & Heq).
    assert (n = n') as <-.
    { apply (numbered_inj ids (distinct (all_names tensors))); [done| | |done].
      - exact (shape_name_seen t n s Ht Hn).
      - exact (shape_name_seen t' n' s' Ht' Hn'). }
    exact (Hcons t' t n s' s Ht' Ht Hn' Hn).
  - apply NoDup_fmap_2_strong; [|done].
    intros n1 n2 H1 H2. apply (numbered_inj _ _ _ _ Hnum); by apply Hsub.
  - apply Forall_fmap, Forall_forall. intros n Hn. cbn [compose].
    apply Hsub, elem_of_distinct, elem_of_all_names in Hn as (t & Ht & Hn).
    apply list_elem_of_lookup in Hn as [k Hk].
    rewrite Forall_forall in Hwf. destruct (Hwf t Ht) as (_ & Hlen & _).
    destruct (lookup_lt_is_Some_2 (tshape (_tensor t)) k) as [s Hs].
    { unfold rank in Hlen. rewrite <-Hlen. by eapply lookup_lt_Some. }
    apply list_elem_of_fmap. exists (ids !!! n, s). split; [done|].
    apply elem_of_sizes. exists t, n. split_and!; [done| |done].
    unfold shape. by eapply (elem_of_lookup_zip_with_2 pair).
Qed.

End DotReturns.

(** On well-formed operands with consistent sizes, [dot] along names that
    all occur returns, on the reference engine. *)
Lemma dot_returns (dims : list name) (tensors : list NamedTensor) :
  tensors ≠ [] → Forall wf tensors → consistent tensors →
  Forall (λ n, n ∈ all_names tensors) dims →
  ∃ r, @dot torch_ref dims tensors = Ok r.
Proof.
  intros Hne Hwf Hcons Hdims.
  destruct (dot_unfold (H:=torch_ref) dims tensors) as (ids & Hnum & ->).
  cbn zeta. rewrite (proj2 (dot_check_Ok _ _)); last first.
  { eapply Forall_impl; [exact Hdims|]. intros n. by rewrite elem_of_distinct. }
  cbn [mbind result_bind contract torch_ref].
  destruct (ref_contract_returns tensors ids Hnum
              (filter (λ n, n ∉ dims) (distinct (all_names tensors))))
    as (raw & -> & Hrank); try done.
  - apply NoDup_filter, NoDup_distinct.
  - intros n Hn. by apply list_elem_of_filter in Hn as [_ ?].
  - cbn [mbind result_bind]. unfold ntorch_tensor, NamedTensor_init.
    rewrite decide_True by apply NoDup_filter, NoDup_distinct.
    rewrite decide_True by done. eauto.
Qed.

(** C1. [dot] numbers the names in the order in which they are first met,
    walking the operands in argument order and each operand's names in
    schema order: the id of a name is its position among the distinct names
    so met, and each operand's index list holds the ids of its names. The
    schema of the tensor [dot] returns is the sequence of the distinct names
    that are not contracted, in first-seen order; it depends on the schemas
    of the operands and on nothing else. On the reference engine [dot]
    returns whenever the operands are well formed, agree on the sizes of
    their names, and have every contracted name. *)
Theorem dot_first_seen_order `{Engine} (dims : list name)
    (tensors : list NamedTensor) :
  let seen := distinct (all_names tensors) in
  (∃ ids,
     dot_ids tensors =
       (ids, seen,
        (λ t, (_tensor t, (λ n, ids !!! n) <$> _names (_schema t)))
          <$> tensors) ∧
     ∀ n i, ids !! n = Some i ↔ seen !! i = Some n) ∧
  (∀ r, dot dims tensors = Ok r →
        _names (_schema r) = filter (λ n, n ∉ dims) seen) ∧
  (∀ tensors' r r',
     (λ t, _names (_schema t)) <$> tensors' =
       (λ t, _names (_schema t)) <$> tensors →
     dot dims tensors = Ok r → dot dims tensors' = Ok r' →
     _names (_schema r') = _names (_schema r)) ∧
  (tensors ≠ [] → Forall wf tensors → consistent tensors →
   Forall (λ n, n ∈ all_names tensors) dims →
   ∃ r, @dot torch_ref dims tensors = Ok r).
Proof.
  intros seen. split_and!; [| | |apply dot_returns].
  - destruct (dot_ids_spec tensors) as (ids & Hids & _ & Hnum). eauto.
  - intros r. apply dot_Ok.
  - intros tensors' r r' Hnames Hr Hr'.
    apply dot_Ok in Hr, Hr'. rewrite Hr, Hr'.
    by rewrite !all_names_fmap, Hnames.
Qed.

Lemma dot_first_seen_order_witness :
  @dot torch_ref ["k"] [ex_X; ex_Y] = Ok ex_XY ∧
  _names (_schema ex_XY) =
    filter (λ n, n ∉ ["k"]) (distinct (all_names [ex_X; ex_Y])).
Proof.
  assert (@dot torch_ref ["k"] [ex_X; ex_Y] = Ok ex_XY) as Hdot
    by (vm_compute; reflexivity).
  split; [exact Hdot|].
  destruct (dot_first_seen_order (H:=torch_ref) ["k"] [ex_X; ex_Y])
    as (_ & Hr & _).
  exact (Hr ex_XY Hdot).
Defined.

(** C3. When some contraction name occurs in no operand, [dot] raises the
    [RuntimeError] that names the first contraction name that no operand
    has, whatever the engine: the Einstein-summation backend has no part in
    the outcome. *)
Theorem dot_unknown_contraction (dims : list name)
    (tensors : list NamedTensor) (n : name) :
  n ∈ dims →
  (∀ t, t ∈ tensors → n ∉ _names (_schema t)) →
  ∃ pre m post,
    dims = pre ++ m :: post ∧
    Forall (λ d, ∃ t, t ∈ tensors ∧ d ∈ _names (_schema t)) pre ∧
    (∀ t, t ∈ tensors → m ∉ _names (_schema t)) ∧
    ∀ E : Engine,
      @dot E dims tensors =
        Raise (RuntimeError ("No dimension " +:+ m +:+ " to contract along")).
Proof.
  intros Hin Hout.
  destruct (dot_check_spec dims (distinct (all_names tensors)))
    as [[Hall _]|(pre & m & post & Hdims & Hpre & Hm & Hraise)].
  { exfalso. rewrite Forall_forall in Hall. apply Hall in Hin.
    apply elem_of_distinct, elem_of_all_names in Hin as (t & Ht & Hn).
    by apply (Hout t Ht). }
  exists pre, m, post. split_and!; [done| | |].
  - eapply Forall_impl; [exact Hpre|]. intros d Hd.
    by apply elem_of_distinct, elem_of_all_names in Hd.
  - intros t Ht Hmt. apply Hm.
    apply elem_of_distinct, elem_of_all_names. eauto.
  - intros E. unfold dot, make_tuple.
    destruct (dot_ids_spec tensors) as (ids & -> & _).
    by rewrite Hraise.
Qed.

Lemma dot_unknown_contraction_witness :
  "z" ∈ ["k"; "z"] ∧
  (∀ t, t ∈ [ex_X; ex_Y] → "z" ∉ _names (_schema t)) ∧
  ∃ pre m post,
    ["k"; "z"] = pre ++ m :: post ∧
    Forall (λ d, ∃ t, t ∈ [ex_X; ex_Y] ∧ d ∈ _names (_schema t)) pre ∧
    (∀ t, t ∈ [ex_X; ex_Y] → m ∉ _names (_schema t)) ∧
    ∀ E : Engine,
      @dot E ["k"; "z"] [ex_X; ex_Y] =
        Raise (RuntimeError ("No dimension " +:+ m +:+ " to contract along")).
Proof.
  assert ("z" ∈ ["k"; "z"]) as Hin by by_decide.
  assert (∀ t, t ∈ [ex_X; ex_Y] → "z" ∉ _names (_schema t)) as Hout.
  { apply Forall_forall. repeat constructor; by_decide. }
  split_and!; [exact Hin|exact Hout|].
  exact (dot_unknown_contraction ["k"; "z"] [ex_X; ex_Y] "z" Hin Hout).
Defined.

Lemma contract_matmul
    (x0 x1 x2 x3 x4 x5 y0 y1 y2 y3 y4 y5 y6 y7 y8 y9 y10 y11 : Z) :
  let X := mkTensor [2; 3] [x0; x1; x2; x3; x4; x5] in
  let Y := mkTensor [3; 4] [y0; y1; y2; y3; y4; y5; y6; y7; y8; y9; y10; y11] in
  ref_contract [(X, [0; 1]); (Y, [1; 2])] [0; 2] = Ok (matmul X Y).
Proof.
  intros X Y. cbv -[Z.add Z.mul]. by rewrite !Z.mul_1_r.
Qed.

(** C2. For [X] named (i, k) of shape (2, 3) and [Y] named (k, j) of shape
    (3, 4), [dot] along k returns, on the reference engine, the tensor named
    (i, j) of shape (2, 4) whose entries are those of the matrix product of
    [X] and [Y]. *)
Theorem dot_matmul (X Y : NamedTensor) :
  _names (_schema X) = ["i"; "k"] → tshape (_tensor X) = [2; 3] →
  length (tdata (_tensor X)) = 6 →
  _names (_schema Y) = ["k"; "j"] → tshape (_tensor Y) = [3; 4] →
  length (tdata (_tensor Y)) = 12 →
  ∃ r, @dot torch_ref ["k"] [X; Y] = Ok r ∧
       _names (_schema r) = ["i"; "j"] ∧
       tshape (_tensor r) = [2; 4] ∧
       _tensor r = matmul (_tensor X) (_tensor Y).
Proof.
  destruct X as [[shx x] [nx]], Y as [[shy y] [ny]]; simpl.
  intros -> -> Hx -> -> Hy.
  destruct x as [|x0 [|x1 [|x2 [|x3 [|x4 [|x5 [|??]]]]]]]; try done.
  destruct y as [|y0 [|y1 [|y2 [|y3 [|y4 [|y5 [|y6 [|y7 [|y8 [|y9 [|y10
    [|y11 [|??]]]]]]]]]]]]]; try done.
  destruct (dot_unfold (H:=torch_ref) ["k"]
    [mkNamedTensor (mkTensor [2; 3] [x0; x1; x2; x3; x4; x5])
       (mkSchema ["i"; "k"]);
     mkNamedTensor
       (mkTensor [3; 4] [y0; y1; y2; y3; y4; y5; y6; y7; y8; y9; y10; y11])
       (mkSchema ["k"; "j"])]) as (ids & Hnum & ->).
  assert (distinct (all_names
    [mkNamedTensor (mkTensor [2; 3] [x0; x1; x2; x3; x4; x5])
       (mkSchema ["i"; "k"]);
     mkNamedTensor
       (mkTensor [3; 4] [y0; y1; y2; y3; y4; y5; y6; y7; y8; y9; y10; y11])
       (mkSchema ["k"; "j"])]) = ["i"; "k"; "j"]) as Hseen by reflexivity.
  rewrite Hseen in *. cbn zeta.
  assert (filter (λ n, n ∉ ["k"]) ["i"; "k"; "j"] = ["i"; "j"]) as ->
    by reflexivity.
  assert (dot_check ["k"] ["i"; "k"; "j"] = Ok ()) as -> by reflexivity.
  unfold dot_operands.
  cbn [mbind result_bind fmap list_fmap _tensor _schema _names].
  rewrite (numbered_lookup_total ids _ "i" 0 Hnum) by done.
  rewrite (numbered_lookup_total ids _ "k" 1 Hnum) by done.
  rewrite (numbered_lookup_total ids _ "j" 2 Hnum) by done.
  cbn [contract torch_ref]. rewrite contract_matmul.
  eexists. split; [reflexivity|]. by split_and!.
Qed.

Lemma dot_matmul_witness :
  (_names (_schema ex_X) = ["i"; "k"] ∧ tshape (_tensor ex_X) = [2; 3] ∧
   length (tdata (_tensor ex_X)) = 6 ∧
   _names (_schema ex_Y) = ["k"; "j"] ∧ tshape (_tensor ex_Y) = [3; 4] ∧
   length (tdata (_tensor ex_Y)) = 12) ∧
  ∃ r, @dot torch_ref ["k"] [ex_X; ex_Y] = Ok r ∧
       _names (_schema r) = ["i"; "j"] ∧
       tshape (_tensor r) = [2; 4] ∧
       _tensor r = matmul (_tensor ex_X) (_tensor ex_Y).
Proof.
  split; [by split_and!|].
  apply (dot_matmul ex_X ex_Y); reflexivity.
Defined.

(** ** [stack] and [cat] *)

Lemma stack_check_spec rest names0 :
  (Forall (λ t, _names (_schema t) = names0) rest ∧
   stack_check rest names0 = Ok ()) ∨
  (¬ Forall (λ t, _names (_schema t) = names0) rest ∧
   stack_check rest names0 =
     Raise (RuntimeError
              "Tensors to stack don't have matching dimension names")).
Proof.
  induction rest as [|t rest IH]; simpl.
  - left. by split.
  - case_decide as Ht.
    + right. split; [|done]. by intros [? _]%Forall_cons.
    + destruct IH as [[IH ->]|[IH ->]]; [left|right]; split; try done.
      * by constructor.
      * by intros [_ ?]%Forall_cons.
Qed.

Lemma cat_check_spec rest names0 :
  (Forall (λ t, _names (_schema t) = names0) rest ∧
   cat_check rest names0 = Ok ()) ∨
  (¬ Forall (λ t, _names (_schema t) = names0) rest ∧
   cat_check rest names0 = Raise AssertionError).
Proof.
  induction rest as [|t rest IH]; simpl.
  - left. by split.
  - case_decide as Ht.
    + destruct IH as [[IH ->]|[IH ->]]; [left|right]; split; try done.
      * by constructor.
      * by intros [_ ?]%Forall_cons.
    + right. split; [|done]. by intros [? _]%Forall_cons.
Qed.

Lemma mapM_as_name (l : list name) :
  mapM (λ n, as_name (default (PName n) (assoc n ([] : list (name * pyvalue)))))
       l = Ok l.
Proof. induction l as [|n l IH]; simpl in *; [done|]. by rewrite IH. Qed.

Lemma _new_no_updates `{Engine} t raw :
  _new t raw [] = NamedTensor_init raw (_names (_schema t)).
Proof. unfold _new. by rewrite mapM_as_name. Qed.

(** *** The reference engine stacks along a new leading axis *)

Lemma numel_cons n sh : numel (n :: sh) = n * numel sh.
Proof. done. Qed.

Lemma block_whole (data : list Z) k : length data = k → block k 0 data = data.
Proof. intros <-. unfold block. simpl. by rewrite take_ge. Qed.

Lemma sum_leading_ones (us : list Tensor) sh :
  Forall (λ u, tshape u = 1 :: sh) us →
  sum_list ((λ t, size_at t 0) <$> us) = length us.
Proof.
  induction 1 as [|u us Hu _ IH]; [done|].
  cbn [fmap list_fmap sum_list length sum_list_with]. unfold size_at at 1.
  rewrite Hu. simpl. by f_equal.
Qed.

Lemma ref_cat_leading (us : list Tensor) sh :
  us ≠ [] →
  Forall (λ u, tshape u = 1 :: sh ∧ length (tdata u) = numel sh) us →
  ref_cat us 0 = Ok (mkTensor (length us :: sh) (us ≫= tdata)).
Proof.
  intros Hne Hus. unfold ref_cat. destruct us as [|u0 us']; [done|].
  pose proof (Forall_inv Hus) as [Hsh0 _].
  remember (u0 :: us') as us eqn:Hcons. clear Hcons.
  rewrite decide_True; last first.
  { split; [unfold rank; rewrite Hsh0; simpl; lia|].
    eapply Forall_impl; [done|]. intros u [-> _]. by rewrite Hsh0. }
  rewrite Hsh0. do 2 f_equal.
  - cbn [insert list_insert]. f_equal.
    apply (sum_leading_ones _ sh). eapply Forall_impl; [done|].
    by intros u [? _].
  - change (seq 0 (numel (take 0 (1 :: sh)))) with [0].
    rewrite bind_singleton. apply Forall_bind_ext.
    eapply Forall_impl; [done|]. intros u [-> Hlen].
    apply block_whole. rewrite drop_0, numel_cons. lia.
Qed.

Lemma ref_stack_leading (ts : list Tensor) sh :
  ts ≠ [] →
  Forall (λ t, tshape t = sh ∧ length (tdata t) = numel sh) ts →
  ref_stack ts 0 = Ok (mkTensor (length ts :: sh) (ts ≫= tdata)).
Proof.
  intros Hne Hts. unfold ref_stack. destruct ts as [|t0 ts']; [done|].
  pose proof (Forall_inv Hts) as [Hsh0 _].
  rewrite decide_True
    by (eapply Forall_impl; [done|]; intros u [-> _]; by rewrite Hsh0).
  assert (mapM (λ t, ref_unsqueeze t 0) (t0 :: ts') =
          Ok ((λ t, mkTensor (1 :: sh) (tdata t)) <$> t0 :: ts')) as ->.
  { clear Hne Hsh0. generalize dependent (t0 :: ts'). intros ts Hts.
    induction Hts as [|u us [Hu _] _ IH]; [done|].
    cbn [mapM]. rewrite IH. unfold ref_unsqueeze.
    rewrite decide_True by lia. simpl. by rewrite Hu. }
  simpl. change (ref_cat ((λ t, mkTensor (1 :: sh) (tdata t)) <$> t0 :: ts') 0
    = Ok (mkTensor (length (t0 :: ts') :: sh) ((t0 :: ts') ≫= tdata))).
  rewrite (ref_cat_leading _ sh).
  - by rewrite length_fmap, list_fmap_bind.
  - done.
  - apply Forall_fmap. eapply Forall_impl; [done|]. by intros u [_ ?].
Qed.

Lemma wf_ex_X : wf ex_X.
Proof. split_and!; [by_decide|reflexivity|reflexivity]. Qed.

(** C5. [stack] raises when the name sequence of some operand differs from
    that of the first, be it only by the order of the names. When it
    returns, all operands have the name sequence of the first, the raw
    tensor is the positional stack of the operands' values at axis 0, and
    the schema is [name] followed by that name sequence. On the reference
    engine, operands of one shape and one name sequence that does not hold
    [name] are stacked into a tensor whose leading axis counts the operands
    and whose other axes are theirs. *)
Theorem stack_schema (t0 : NamedTensor) (rest : list NamedTensor)
    (name : name) :
  (∀ E : Engine,
     ¬ same_names t0 rest →
     @stack E (t0 :: rest) name =
       Raise (RuntimeError
                "Tensors to stack don't have matching dimension names")) ∧
  (∀ (E : Engine) r,
     @stack E (t0 :: rest) name = Ok r →
     same_names t0 rest ∧
     torch_stack (values <$> t0 :: rest) 0 = Ok (_tensor r) ∧
     _names (_schema r) = name :: _names (_schema t0)) ∧
  (same_names t0 rest → Forall wf (t0 :: rest) →
   Forall (λ t, tshape (_tensor t) = tshape (_tensor t0)) rest →
   name ∉ _names (_schema t0) →
   @stack torch_ref (t0 :: rest) name =
     Ok (mkNamedTensor
           (mkTensor (S (length rest) :: tshape (_tensor t0))
                     ((t0 :: rest) ≫= λ t, tdata (_tensor t)))
           (mkSchema (name :: _names (_schema t0))))).
Proof.
  split_and!.
  - intros E Hne. unfold stack.
    destruct (stack_check_spec rest (_names (_schema t0))) as [[? _]|[_ ->]];
      done.
  - intros E r. unfold stack.
    destruct (stack_check_spec rest (_names (_schema t0))) as [[? ->]|[_ ->]];
      [|done].
    intros Hr. apply bind_Ok in Hr as (_ & _ & Hr).
    apply bind_Ok in Hr as (raw & Hraw & Hr).
    apply NamedTensor_init_Ok in Hr as (_ & _ & ->). done.
  - intros Hsame Hwf Hsh Hname. unfold stack.
    destruct (stack_check_spec rest (_names (_schema t0))) as [[_ ->]|[? _]];
      [|done].
    pose proof (Forall_inv Hwf) as (Hnd & Hlen & _).
    cbn [mbind result_bind torch_stack torch_ref].
    rewrite (ref_stack_leading _ (tshape (_tensor t0))).
    + cbn [mbind result_bind]. unfold ntorch_tensor, NamedTensor_init.
      rewrite decide_True by (by constructor).
      rewrite decide_True by (unfold rank in *; simpl; lia).
      rewrite length_fmap. simpl. do 3 f_equal.
      by rewrite list_fmap_bind.
    + done.
    + apply Forall_fmap. apply Forall_cons. split.
      * split; [done|]. by destruct (Forall_inv Hwf) as (_ & _ & ?).
      * apply Forall_forall. intros t Ht. rewrite Forall_forall in Hsh.
        apply Forall_cons in Hwf as [_ Hwf]. rewrite Forall_forall in Hwf.
        destruct (Hwf t Ht) as (_ & _ & Hd). unfold values. simpl.
        rewrite <-(Hsh t Ht). done.
Qed.

Lemma stack_schema_witness :
  (same_names ex_X [ex_X] ∧ Forall wf [ex_X; ex_X] ∧
   Forall (λ t, tshape (_tensor t) = tshape (_tensor ex_X)) [ex_X] ∧
   "b" ∉ _names (_schema ex_X)) ∧
  @stack torch_ref [ex_X; ex_X] "b" =
    Ok (mkNamedTensor
          (mkTensor [2; 2; 3] [1; 2; 3; 4; 5; 6; 1; 2; 3; 4; 5; 6]%Z)
          (mkSchema ["b"; "i"; "k"])).
Proof.
  assert (same_names ex_X [ex_X]) as Hsame by (by repeat constructor).
  assert (Forall wf [ex_X; ex_X]) as Hwf
    by (do 2 (constructor; [apply wf_ex_X|]); constructor).
  assert (Forall (λ t, tshape (_tensor t) = tshape (_tensor ex_X)) [ex_X])
    as Hsh by (by repeat constructor).
  assert ("b" ∉ _names (_schema ex_X)) as Hb by by_decide.
  split; [by split_and!|].
  destruct (stack_schema ex_X [ex_X] "b") as (_ & _ & Hok).
  exact (Hok Hsame Hwf Hsh Hb).
Defined.

(** C4, counterexample. Two operands with the same names in different
    physical orders: [cat] does not succeed. *)
Lemma cat_reordered_operands :
  _names (_schema ex_B) ≡ₚ _names (_schema ex_A) ∧
  @cat torch_ref [ex_A; ex_B] "a" = Raise AssertionError.
Proof. split; [apply perm_swap|reflexivity]. Qed.

(** C4 (as amended). [cat] accepts operands whose name sequences equal that
    of the first operand, names and order alike, and rejects any other list
    with an [AssertionError], be the difference only one of order. The axis
    is the position of [dim] in the schema of the first operand, which is
    then its position in every operand; the result is the positional
    concatenation of the operands' values at that axis, under the schema of
    the first operand. *)
Theorem cat_same_order (t0 : NamedTensor) (rest : list NamedTensor)
    (dim : name) (d : nat) :
  index_of dim (_names (_schema t0)) = Some d →
  (∀ E : Engine,
     ¬ same_names t0 rest → @cat E (t0 :: rest) dim = Raise AssertionError) ∧
  (∀ E : Engine,
     same_names t0 rest →
     Forall (λ t, Schema_get (_schema t) dim = Ok d) (t0 :: rest) ∧
     @cat E (t0 :: rest) dim =
       (raw ← torch_cat (values <$> t0 :: rest) d;
        NamedTensor_init raw (_names (_schema t0)))).
Proof.
  intros Hd. split.
  - intros E Hne. unfold cat, Schema_get. rewrite Hd.
    destruct (cat_check_spec rest (_names (_schema t0))) as [[? _]|[_ ->]];
      done.
  - intros E Hsame. split.
    + apply Forall_cons. split; [by unfold Schema_get; rewrite Hd|].
      eapply Forall_impl; [exact Hsame|]. intros t Ht. simpl in Ht.
      unfold Schema_get. by rewrite Ht, Hd.
    + unfold cat, Schema_get. rewrite Hd.
      destruct (cat_check_spec rest (_names (_schema t0))) as [[_ ->]|[? _]];
        [|done].
      cbn [mbind result_bind]. destruct (torch_cat _ _); [|done].
      cbn [mbind result_bind]. apply _new_no_updates.
Qed.

Lemma cat_same_order_witness :
  index_of "k" (_names (_schema ex_X)) = Some 1 ∧
  same_names ex_X [ex_X] ∧
  @cat torch_ref [ex_X; ex_X] "k" =
    (raw ← torch_cat (values <$> [ex_X; ex_X]) 1;
     NamedTensor_init raw (_names (_schema ex_X))).
Proof.
  assert (index_of "k" (_names (_schema ex_X)) = Some 1) as Hd
    by reflexivity.
  assert (same_names ex_X [ex_X]) as Hsame by (by repeat constructor).
  split_and!; [exact Hd|exact Hsame|].
  destruct (cat_same_order ex_X [ex_X] "k" 1 Hd) as [_ Hok].
  exact (proj2 (Hok torch_ref Hsame)).
Defined.

(** ** [_force_order] accepts exactly the permutations *)

Lemma reorders_Permutation target names :
  reorders target names = true ↔ target ≡ₚ names.
Proof.
  revert names. induction target as [|n target IH]; intros names;
    cbn [reorders].
  - rewrite bool_decide_eq_true. split; [by intros ->|].
    intros Hp. symmetry in Hp. by apply Permutation_nil_r in Hp.
  - destruct (index_of n names) as [i|] eqn:Hi.
    + apply index_of_Some in Hi. rewrite IH.
      pose proof (delete_Permutation names i n Hi) as Hdel. split.
      * intros Hp. by rewrite Hdel, Hp.
      * intros Hp. rewrite Hdel in Hp. by apply (inj (cons n)) in Hp.
    + split; [done|]. intros Hp. apply index_of_None in Hi.
      exfalso. apply Hi. rewrite <-Hp. apply list_elem_of_here.
Qed.

(** ** [gather] *)

(** Without the name [index_dim] among the names of [input], the [updates]
    that [gather] passes to [_new] rename nothing: the result of [gather]
    has the schema of [input]. *)
Lemma gather_schema_unchanged `{Engine} input dim index index_dim r :
  index_dim ∉ _names (_schema input) →
  gather input dim index index_dim = Ok r →
  _names (_schema r) = _names (_schema input).
Proof.
  intros Hout. unfold gather. intros Hr.
  apply bind_Ok in Hr as (b1 & _ & Hr).
  apply bind_Ok in Hr as (d & _ & Hr).
  apply bind_Ok in Hr as (raw & _ & Hr).
  unfold _new in Hr. apply bind_Ok in Hr as (names & Hnames & Hr).
  apply NamedTensor_init_Ok in Hr as (_ & _ & ->). simpl.
  revert names Hnames Hout. generalize (_names (_schema input)) as l.
  induction l as [|n l IH]; intros names Hnames Hout.
  - by injection Hnames as <-.
  - cbn [mapM] in Hnames. apply not_elem_of_cons in Hout as [Hne Hout].
    cbn [assoc] in Hnames. rewrite decide_False in Hnames by done.
    cbn [assoc default as_name mbind result_bind] in Hnames.
    apply bind_Ok in Hnames as (names' & Hnames' & Hnames).
    injection Hnames as <-. f_equal. by apply IH.
Qed.

(** C6, the code at the failing input: the gathered axis keeps the name
    [k]; it is not renamed to [c]. *)
Theorem gather_keeps_name :
  @gather torch_ref ex_X "k" ex_index "c" =
    Ok (mkNamedTensor (mkTensor [2; 1] [3; 4]%Z) (mkSchema ["i"; "k"])).
Proof. vm_compute. reflexivity. Qed.

(** ** [scatter_] *)

(** C7. When the force-ordering of [index] or of [src] fails, or [dim] is
    no name of [input], [scatter_] raises and leaves [input] as it was,
    whatever the engine. In every case the schema of [input] is the same
    after the call as before. When the call returns, it returns no value,
    and the tensor of [input] is what the positional scatter, run on the
    force-ordered operands at the position of [dim], has made of it. *)
Theorem scatter_frame `{Engine} (input : NamedTensor) (dim : name)
    (index src : NamedTensor) (index_dim : name) :
  let order := index_order input dim index_dim in
  (((∃ e, _force_order index order = Raise e) ∨
    (∃ e, _force_order src order = Raise e) ∨
    (∃ e, Schema_get (_schema input) dim = Raise e)) →
   ∃ e, scatter_ dim index src index_dim input = (input, Raise e)) ∧
  (∀ input' r, scatter_ dim index src index_dim input = (input', r) →
               _schema input' = _schema input) ∧
  (∀ input' (v : unit),
     scatter_ dim index src index_dim input = (input', Ok v) →
     ∃ index_force src_force d,
       _force_order index order = Ok index_force ∧
       _force_order src order = Ok src_force ∧
       Schema_get (_schema input) dim = Ok d ∧
       torch_scatter_ (values input) d (values index_force)
         (values src_force) = (_tensor input', Ok v)).
Proof.
  intros order. unfold scatter_.
  unfold mbind, inplace_bind, self, lift, on_values. fold order.
  fold (index_order input dim index_dim). fold order.
  destruct (_force_order index order) as [index_force|e1].
  2: { split_and!; [eauto|by intros ?? [= <- _]|done]. }
  destruct (_force_order src order) as [src_force|e2].
  2: { split_and!; [eauto|by intros ?? [= <- _]|done]. }
  destruct (Schema_get (_schema input) dim) as [d|e3].
  2: { split_and!; [eauto|by intros ?? [= <- _]|done]. }
  split_and!.
  - intros [[e [=]]|[[e [=]]|[e [=]]]].
  - intros ??. destruct (torch_scatter_ _ _ _ _). by intros [= <- _].
  - intros input' v. unfold values at 1.
    destruct (torch_scatter_ _ _ _ _) as [t' r'] eqn:Hsc.
    intros [= <- ->]. by exists index_force, src_force, d.
Qed.

Lemma scatter_frame_witness :
  ((∃ e, _force_order (H:=torch_ref) ex_Y (index_order ex_X "k" "c")
         = Raise e) ∧
   ∃ e, @scatter_ torch_ref "k" ex_Y ex_src "c" ex_X = (ex_X, Raise e)) ∧
  (@scatter_ torch_ref "k" ex_index ex_src "c" ex_X =
     (mkNamedTensor (mkTensor [2; 3] [1; 2; 70; 80; 5; 6]%Z)
        (mkSchema ["i"; "k"]), Ok ()) ∧
   _schema (mkNamedTensor (mkTensor [2; 3] [1; 2; 70; 80; 5; 6]%Z)
              (mkSchema ["i"; "k"])) = _schema ex_X).
Proof.
  split.
  - assert (∃ e, _force_order (H:=torch_ref) ex_Y (index_order ex_X "k" "c")
                 = Raise e) as Hfail
      by (exists SchemaMismatchError; reflexivity).
    split; [exact Hfail|].
    destruct (scatter_frame (H:=torch_ref) ex_X "k" ex_Y ex_src "c")
      as (Hframe & _ & _).
    apply Hframe. left. exact Hfail.
  - assert (@scatter_ torch_ref "k" ex_index ex_src "c" ex_X =
              (mkNamedTensor (mkTensor [2; 3] [1; 2; 70; 80; 5; 6]%Z)
                 (mkSchema ["i"; "k"]), Ok ())) as Hrun
      by (vm_compute; reflexivity).
    split; [exact Hrun|].
    destruct (scatter_frame (H:=torch_ref) ex_X "k" ex_index ex_src "c")
      as (_ & Hschema & _).
    exact (Hschema _ _ Hrun).
Defined.

(** ** [multi_index_select]: the precondition checks *)

Lemma size_list_to_set_le (l : list name) :
  size (list_to_set l : gset name) ≤ length l.
Proof.
  induction l as [|x l IH]; [done|].
  rewrite list_to_set_cons. cbn [length].
  rewrite size_union_alt, size_singleton.
  assert (list_to_set l ∖ {[x]} ⊆ (list_to_set l : gset name)) as Hsub
    by set_solver.
  apply subseteq_size in Hsub. lia.
Qed.

Lemma size_list_to_set_lt (l : list name) :
  size (list_to_set l : gset name) < length l ↔ ¬ NoDup l.
Proof.
  split.
  - intros Hlt Hnd. apply (size_list_to_set (C:=gset name)) in Hnd. lia.
  - induction l as [|x l IH]; intros Hnd; [by destruct Hnd; constructor|].
    rewrite list_to_set_cons. cbn [length].
    destruct (decide (x ∈ l)) as [Hin|Hout].
    + assert ({[x]} ∪ list_to_set l = (list_to_set l : gset name)) as ->
        by set_solver.
      pose proof (size_list_to_set_le l). lia.
    + rewrite size_union by set_solver. rewrite size_singleton.
      assert (¬ NoDup l) as Hl by (intros ?; apply Hnd; by constructor).
      apply IH in Hl. lia.
Qed.

(** The first of [dims] that is no name of the tensor makes [mis_check]
    raise. *)
Lemma mis_check_spec dims names :
  (Forall (λ d, d ∈ names) dims ∧ mis_check dims names = Ok ()) ∨
  (∃ pre m post,
     dims = pre ++ m :: post ∧ Forall (λ d, d ∈ names) pre ∧ (m ∉ names) ∧
     mis_check dims names =
       Raise (RuntimeError (m +:+ " is not a dimension name in tensor"))).
Proof.
  induction dims as [|d dims IH]; simpl.
  - left. by split.
  - case_decide as Hd.
    + destruct IH as [[IH ->]|(pre & m & post & -> & Hpre & Hm & ->)].
      * left. split; [by constructor|done].
      * right. exists (d :: pre), m, post. split_and!; try done.
        by constructor.
    + right. exists [], d, dims. by split_and!.
Qed.

Section MisChecks.
Context `{Engine}.
Context (tensor : NamedTensor) (dims : list name) (indices : NamedTensor).
Context (index_dim : name) (sz : nat).
Hypothesis Hdim : _names (_schema indices) !! 1 = Some index_dim.
Hypothesis Hsz : assoc index_dim (shape indices) = Some sz.

Lemma mis_size_mismatch :
  length dims ≠ sz →
  multi_index_select tensor dims indices =
    Raise (size_error (length dims) sz).
Proof.
  intros Hne. unfold multi_index_select, tuple_get, shape_at.
  rewrite Hdim. cbn [mbind result_bind]. rewrite Hsz.
  cbn [mbind result_bind]. by rewrite decide_True.
Qed.

Lemma mis_rank_short :
  length dims = sz → length (shape tensor) < length dims →
  multi_index_select tensor dims indices =
    Raise (rank_error (length (shape tensor)) (length dims)).
Proof.
  intros Heq Hlt. unfold multi_index_select, tuple_get, shape_at.
  rewrite Hdim. cbn [mbind result_bind]. rewrite Hsz.
  cbn [mbind result_bind]. rewrite decide_False by (by intros ?).
  by rewrite decide_True.
Qed.

Lemma mis_duplicate :
  length dims = sz → length dims ≤ length (shape tensor) → ¬ NoDup dims →
  multi_index_select tensor dims indices = Raise duplicate_error.
Proof.
  intros Heq Hle Hdup. unfold multi_index_select, tuple_get, shape_at.
  rewrite Hdim. cbn [mbind result_bind]. rewrite Hsz.
  cbn [mbind result_bind]. rewrite decide_False by (by intros ?).
  rewrite decide_False by lia.
  by rewrite decide_True by (by apply size_list_to_set_lt).
Qed.

Lemma mis_unknown pre m post :
  length dims = sz → length dims ≤ length (shape tensor) → NoDup dims →
  dims = pre ++ m :: post →
  Forall (λ d, d ∈ _names (_schema tensor)) pre →
  m ∉ _names (_schema tensor) →
  multi_index_select tensor dims indices = Raise (unknown_error m).
Proof.
  intros Heq Hle Hnd Hdims Hpre Hm.
  unfold multi_index_select, tuple_get, shape_at.
  rewrite Hdim. cbn [mbind result_bind]. rewrite Hsz.
  cbn [mbind result_bind]. rewrite decide_False by (by intros ?).
  rewrite decide_False by lia.
  rewrite decide_False
    by (rewrite size_list_to_set_lt; by intros Hn; apply Hn).
  destruct (mis_check_spec dims (_names (_schema tensor)))
    as [[Hall _]|(pre' & m' & post' & Hdims' & Hpre' & Hm' & ->)].
  - exfalso. rewrite Hdims in Hall. apply Forall_app in Hall as [_ Hall].
    by apply Forall_cons in Hall as [? _].
  - cbn [mbind result_bind]. do 2 f_equal. unfold unknown_error, fmt_s.
    do 2 f_equal. subst dims. clear -Hdims' Hpre Hm Hpre' Hm'.
    revert pre' Hdims' Hpre'. induction pre as [|p pre IH];
      intros [|p' pre'] Heq Hpre'; simplify_eq/=; try done.
    + by apply Forall_cons in Hpre' as [? _].
    + by apply Forall_cons in Hpre as [? _].
    + apply Forall_cons in Hpre as [_ Hpre].
      apply Forall_cons in Hpre' as [_ Hpre']. by eapply IH.
Qed.

End MisChecks.

(** C10. Once the size of the second axis of [indices] is read, the checks
    of [multi_index_select] run in a fixed order, and the first that fails
    decides the error: the size of that axis against [len(dims)], then
    [len(dims)] against the rank of the tensor, then duplicates in [dims],
    then the membership of each of [dims], in order, among the names of the
    tensor. In particular a size mismatch is reported whether or not [dims]
    holds a duplicate. *)
Theorem mis_check_order `{Engine} (tensor : NamedTensor) (dims : list name)
    (indices : NamedTensor) (index_dim : name) (sz : nat) :
  _names (_schema indices) !! 1 = Some index_dim →
  assoc index_dim (shape indices) = Some sz →
  let r := multi_index_select tensor dims indices in
  (length dims ≠ sz → r = Raise (size_error (length dims) sz)) ∧
  (length dims = sz → length (shape tensor) < length dims →
   r = Raise (rank_error (length (shape tensor)) (length dims))) ∧
  (length dims = sz → length dims ≤ length (shape tensor) → ¬ NoDup dims →
   r = Raise duplicate_error) ∧
  (length dims = sz → length dims ≤ length (shape tensor) → NoDup dims →
   ∀ pre m post,
     dims = pre ++ m :: post →
     Forall (λ d, d ∈ _names (_schema tensor)) pre →
     m ∉ _names (_schema tensor) →
     r = Raise (unknown_error m)).
Proof.
  intros Hdim Hsz r. subst r. split_and!.
  - by apply (mis_size_mismatch _ _ _ index_dim).
  - by apply (mis_rank_short _ _ _ index_dim sz).
  - by apply (mis_duplicate _ _ _ index_dim sz).
  - intros ??? pre m post. by apply (mis_unknown _ _ _ index_dim sz).
Qed.

Lemma mis_check_order_witness :
  (_names (_schema ex_rows) !! 1 = Some "d" ∧
   assoc "d" (shape ex_rows) = Some 1) ∧
  @multi_index_select torch_ref ex_X ["i"; "i"] ex_rows =
    Raise (size_error 2 1).
Proof.
  split; [by split|].
  destruct (mis_check_order (H:=torch_ref) ex_X ["i"; "i"] ex_rows "d" 1
              eq_refl eq_refl) as (Hsize & _).
  apply Hsize. cbn. lia.
Defined.

(** C8, counterexample. [dims] holds a duplicate, and the error is the one
    of the size check. *)
Lemma mis_duplicate_masked :
  ¬ NoDup ["i"; "i"] ∧
  @multi_index_select torch_ref ex_X ["i"; "i"] ex_rows =
    Raise (RuntimeError "Size of elements in 'indices' should be 2, got 1") ∧
  RuntimeError "Size of elements in 'indices' should be 2, got 1" ≠
    RuntimeError "Tuple 'dims' must contain unique names".
Proof. split_and!; [by_decide|reflexivity|done]. Qed.

(** C8 (as amended). A call whose [dims] holds a duplicate always raises;
    [dims] is never deduplicated. The error is the duplicate-dims error
    when the two checks before it pass, and the error of the earlier check
    otherwise; the message of the duplicate-dims error is a fixed text. *)
Theorem mis_duplicate_dims `{Engine} (tensor : NamedTensor)
    (dims : list name) (indices : NamedTensor) :
  ¬ NoDup dims →
  (∃ e, multi_index_select tensor dims indices = Raise e) ∧
  (∀ index_dim sz,
     _names (_schema indices) !! 1 = Some index_dim →
     assoc index_dim (shape indices) = Some sz →
     multi_index_select tensor dims indices =
       Raise (if decide (length dims ≠ sz)
              then size_error (length dims) sz
              else if decide (length (shape tensor) < length dims)
              then rank_error (length (shape tensor)) (length dims)
              else RuntimeError "Tuple 'dims' must contain unique names")).
Proof.
  intros Hdup.
  assert (∀ index_dim sz,
     _names (_schema indices) !! 1 = Some index_dim →
     assoc index_dim (shape indices) = Some sz →
     multi_index_select tensor dims indices =
       Raise (if decide (length dims ≠ sz)
              then size_error (length dims) sz
              else if decide (length (shape tensor) < length dims)
              then rank_error (length (shape tensor)) (length dims)
              else RuntimeError "Tuple 'dims' must contain unique names"))
    as Hcases.
  { intros index_dim sz Hdim Hsz.
    destruct (decide (length dims ≠ sz)) as [Hne|Heq].
    { by apply (mis_size_mismatch _ _ _ index_dim). }
    apply dec_stable in Heq.
    destruct (decide (length (shape tensor) < length dims)) as [Hlt|Hge].
    { by apply (mis_rank_short _ _ _ index_dim sz). }
    apply (mis_duplicate _ _ _ index_dim sz); [done..|lia|done]. }
  split; [|done].
  destruct (_names (_schema indices) !! 1) as [index_dim|] eqn:Hdim.
  2: { exists IndexError. unfold multi_index_select, tuple_get.
       by rewrite Hdim. }
  destruct (assoc index_dim (shape indices)) as [sz|] eqn:Hsz.
  2: { exists (KeyError index_dim).
       unfold multi_index_select, tuple_get, shape_at.
       rewrite Hdim. cbn [mbind result_bind]. by rewrite Hsz. }
  eexists. by apply (Hcases index_dim sz).
Qed.

Lemma mis_duplicate_dims_witness :
  ¬ NoDup ["i"; "i"] ∧
  ∃ e, @multi_index_select torch_ref ex_X ["i"; "i"] ex_rows = Raise e.
Proof.
  assert (¬ NoDup ["i"; "i"]) as Hdup by by_decide.
  split; [exact Hdup|].
  exact (proj1 (mis_duplicate_dims (H:=torch_ref) ex_X ["i"; "i"] ex_rows
                  Hdup)).
Defined.

(** ** Row-major layout *)

Lemma all_indices_spec sh idx :
  idx ∈ all_indices sh → length idx = length sh ∧ offset sh idx < numel sh.
Proof.
  revert idx. induction sh as [|n sh IH]; intros idx; cbn [all_indices].
  - intros ->%list_elem_of_singleton. simpl. lia.
  - rewrite list_elem_of_bind. intros (i & Hidx & Hi).
    apply list_elem_of_fmap in Hidx as (idx' & -> & Hidx').
    apply elem_of_seq in Hi. destruct (IH _ Hidx') as [Hlen Hoff].
    cbn [length offset]. rewrite numel_cons. split; [lia|nia].
Qed.

Lemma blocks_take (data : list Z) k s n :
  (i ← seq s n; block k i data) = take (n * k) (drop (s * k) data).
Proof.
  revert s. induction n as [|n IH]; intros s; [by rewrite take_0|].
  cbn [seq]. rewrite bind_cons, IH. unfold block.
  replace (S s * k) with (s * k + k) by lia. rewrite <-drop_drop.
  rewrite take_take_drop. f_equal; lia.
Qed.

Lemma blocks_whole (data : list Z) k n :
  length data = n * k → (i ← seq 0 n; block k i data) = data.
Proof.
  intros Hlen. rewrite blocks_take. simpl. apply take_ge. lia.
Qed.

Lemma nth_block (data : list Z) k i o :
  o < k → nth o (block k i data) 0%Z = nth (i * k + o) data 0%Z.
Proof.
  intros Ho. unfold block. rewrite !nth_lookup.
  by rewrite lookup_take_lt, lookup_drop.
Qed.

(** Reading a tensor at every multi-index, in order, gives back its data. *)
Lemma tabulate_tget sh (data : list Z) :
  length data = numel sh →
  (λ idx, nth (offset sh idx) data 0%Z) <$> all_indices sh = data.
Proof.
  revert data. induction sh as [|n sh IH]; intros data Hlen.
  - destruct data as [|z [|??]]; try done.
  - cbn [all_indices]. rewrite numel_cons in Hlen.
    rewrite fmap_list_bind.
    etrans; [|apply (blocks_whole data (numel sh) n Hlen)].
    apply Forall_bind_ext, Forall_forall. intros i Hi.
    apply elem_of_seq in Hi. rewrite <-list_fmap_compose.
    rewrite <-(IH (block (numel sh) i data)).
    + apply Forall_fmap_ext, Forall_forall. intros idx Hidx.
      apply all_indices_spec in Hidx as [_ Hoff]. cbn [compose offset].
      by rewrite nth_block.
    + unfold block. rewrite length_take, length_drop. nia.
Qed.

Lemma fmap_nth_seq {A} (l : list A) d :
  (λ a, nth a l d) <$> seq 0 (length l) = l.
Proof.
  apply list_eq. intros i. rewrite list_lookup_fmap.
  destruct (l !! i) as [x|] eqn:Hi.
  - assert ((seq 0 (length l)) !! i = Some i) as ->
      by (apply lookup_seq; split; [done|by eapply lookup_lt_Some]).
    simpl. by rewrite (nth_lookup_Some _ _ _ _ Hi).
  - apply lookup_ge_None in Hi.
    rewrite (proj2 (lookup_ge_None _ _)) by (by rewrite length_seq). done.
Qed.

Lemma index_of_seq a n : a < n → index_of a (seq 0 n) = Some a.
Proof.
  assert (∀ s, a < n → index_of (s + a) (seq s n) = Some a) as Hgen.
  { revert a. induction n as [|n IH]; intros a s Ha; [lia|].
    cbn [seq index_of]. destruct a as [|a].
    - by rewrite Nat.add_0_r, decide_True.
    - rewrite decide_False by lia.
      replace (s + S a) with (S s + a) by lia. rewrite IH by lia. done. }
  apply (Hgen 0).
Qed.

(** The identity permutation leaves a tensor as it is. *)
Lemma ref_permute_id (t : Tensor) :
  length (tdata t) = numel (tshape t) →
  ref_permute t (seq 0 (rank t)) = Ok t.
Proof.
  intros Hlen. unfold ref_permute.
  rewrite decide_True; last first.
  { split_and!; [apply NoDup_seq|by rewrite length_seq|].
    apply Forall_seq. intros; lia. }
  f_equal. destruct t as [sh data]. unfold tabulate, rank, size_at, tget.
  cbn [tshape tdata] in *. rewrite fmap_nth_seq. f_equal.
  etrans; [|apply (tabulate_tget sh data Hlen)].
  apply Forall_fmap_ext, Forall_forall. intros idx Hidx.
  apply all_indices_spec in Hidx as [Hidx _]. do 2 f_equal.
  etrans; [|apply (fmap_nth_seq idx 0)]. rewrite Hidx.
  apply Forall_fmap_ext, Forall_seq. intros a Ha.
  by rewrite index_of_seq by lia.
Qed.

(** ** [multi_index_select] without dims *)

Lemma mis_remaining_nil names :
  mis_remaining names [] = (seq 0 (length names), names).
Proof.
  unfold mis_remaining.
  assert (∀ s rd rn,
    foldl (λ '(remaining_dims, remaining_names) '(i, name),
             if decide (i ∉ ([] : list nat))
             then (remaining_dims ++ [i], remaining_names ++ [name])
             else (remaining_dims, remaining_names))
          (rd, rn) (zip (seq s (length names)) names) =
    (rd ++ seq s (length names), rn ++ names)) as Hgen.
  { induction names as [|n names IH]; intros s rd rn.
    - by rewrite !app_nil_r.
    - cbn [length seq zip zip_with foldl].
      rewrite decide_True by apply not_elem_of_nil.
      rewrite IH. by rewrite <-!app_assoc. }
  apply (Hgen 0 [] []).
Qed.

Lemma fmap_const_seq {A} (c : A) s n : (λ _, c) <$> seq s n = replicate n c.
Proof.
  revert s. induction n as [|n IH]; intros s; [done|].
  cbn [seq fmap list_fmap replicate]. f_equal. apply IH.
Qed.

Lemma mapM_replicate {A B} (f : A → result B) x y n :
  f x = Ok y → mapM f (replicate n x) = Ok (replicate n y).
Proof.
  intros Hf. induction n as [|n IH]; [done|].
  cbn [replicate mapM]. by rewrite Hf, IH.
Qed.

Lemma bind_replicate {A B} (f : A → list B) x n :
  replicate n x ≫= f = mjoin (replicate n (f x)).
Proof.
  induction n as [|n IH]; [done|].
  cbn [replicate]. by rewrite bind_cons, IH.
Qed.

(** The rows of an index tensor whose second axis is empty are empty. *)
Lemma ref_iter_empty_rows (data : list Z) n sh :
  ref_iter (mkTensor (n :: 0 :: sh) data) =
  Ok (replicate n (mkTensor (0 :: sh) [])).
Proof.
  unfold ref_iter. cbn [tshape tdata]. f_equal.
  rewrite <-(fmap_const_seq _ 0 n). apply list_fmap_ext. intros i j _.
  unfold block. by rewrite numel_cons, take_0.
Qed.

(** Indexing with the empty tuple gives the tensor itself. *)
Lemma ref_getitem_empty (t : Tensor) sh :
  length (tdata t) = numel (tshape t) →
  ref_getitem t (mkTensor (0 :: sh) []) = Ok t.
Proof.
  intros Hlen. unfold ref_getitem, ref_tuple, ref_iter.
  cbn [tshape tdata seq fmap list_fmap mapM mbind result_bind mret
       result_ret length].
  rewrite decide_True by lia. rewrite zip_with_nil_r.
  cbn [mapM mret option_ret]. rewrite drop_0.
  destruct t as [sht data]. cbn [tshape tdata] in *. do 2 f_equal.
  assert (offset sht [] = 0) as -> by by destruct sht.
  rewrite drop_0. apply take_ge. lia.
Qed.

(** C9, counterexample. An index tensor with two empty rows: the new
    leading axis has size two. *)
Lemma mis_no_dims_two_rows :
  @multi_index_select torch_ref ex_X [] ex_two_empty_rows =
    Ok (mkNamedTensor
          (mkTensor [2; 2; 3] [1; 2; 3; 4; 5; 6; 1; 2; 3; 4; 5; 6]%Z)
          (mkSchema ["e"; "i"; "k"])).
Proof. vm_compute. reflexivity. Qed.

(** C9 (as amended). With no dims, and an index tensor whose second axis is
    empty, [multi_index_select] returns, on the reference engine, one copy
    of the values of [t] for each row of the index tensor, along a new
    leading axis named after the first axis of the index tensor. With one
    row this is the values of [t] under a leading axis of size one; with no
    row the positional concatenation has nothing to concatenate, and
    raises. *)
Theorem mis_no_dims (t indices : NamedTensor) (e d : name)
    (rest : list name) (n : nat) (sh : list nat) :
  wf t →
  _names (_schema indices) = e :: d :: rest → e ≠ d →
  tshape (_tensor indices) = n :: 0 :: sh →
  e ∉ _names (_schema t) →
  (n = 0 → ∃ msg, @multi_index_select torch_ref t [] indices =
                    Raise (EngineError msg)) ∧
  (0 < n →
   @multi_index_select torch_ref t [] indices =
     Ok (mkNamedTensor
           (mkTensor (n :: tshape (_tensor t))
                     (mjoin (replicate n (tdata (_tensor t)))))
           (mkSchema (e :: _names (_schema t))))) ∧
  (n = 1 →
   @multi_index_select torch_ref t [] indices =
     Ok (mkNamedTensor
           (mkTensor (1 :: tshape (_tensor t)) (tdata (_tensor t)))
           (mkSchema (e :: _names (_schema t))))).
Proof.
  intros (Hnd & Hrank & Hlen) Hnames Hed Hshape He.
  assert (@multi_index_select torch_ref t [] indices =
    (tensors ← ref_cat (replicate n (mkTensor (1 :: tshape (_tensor t))
                                       (tdata (_tensor t)))) 0;
     NamedTensor_init tensors (e :: _names (_schema t)))) as ->.
  { unfold multi_index_select, tuple_get, shape_at, shape.
    rewrite Hnames, Hshape. cbn [lookup list_lookup mbind result_bind].
    cbn [zip zip_with assoc].
    destruct (decide (e = d)) as [?|_]; [done|].
    destruct (decide (d = d)) as [_|?]; [|done].
    cbn [length mbind result_bind].
    destruct (decide (0 ≠ 0)) as [?|_]; [done|].
    destruct (decide (_ < 0)) as [?|_]; [lia|].
    destruct (decide (_ < 0)) as [?|_]; [lia|].
    cbn [mis_check mapM mbind result_bind mret result_ret].
    rewrite mis_remaining_nil. cbn [app permute torch_ref].
    unfold values. rewrite Hrank, ref_permute_id by done.
    cbn [mbind result_bind iter torch_ref].
    destruct (_tensor indices) as [shi datai]. cbn [tshape] in Hshape.
    subst shi. rewrite ref_iter_empty_rows. cbn [mbind result_bind].
    rewrite (mapM_replicate _ _
               (mkTensor (1 :: tshape (_tensor t)) (tdata (_tensor t)))).
    2: { cbn [getitem unsqueeze torch_ref].
         rewrite ref_getitem_empty by done. cbn [mbind result_bind].
         unfold ref_unsqueeze. by rewrite decide_True by lia. }
    cbn [mbind result_bind torch_cat torch_ref]. done. }
  assert (0 < n →
    ref_cat (replicate n (mkTensor (1 :: tshape (_tensor t))
                            (tdata (_tensor t)))) 0 =
    Ok (mkTensor (n :: tshape (_tensor t))
          (mjoin (replicate n (tdata (_tensor t)))))) as Hcat.
  { intros Hn. rewrite (ref_cat_leading _ (tshape (_tensor t))).
    - by rewrite length_replicate, bind_replicate.
    - destruct n; [lia|done].
    - apply Forall_replicate. by split. }
  assert (NamedTensor_init
            (mkTensor (n :: tshape (_tensor t))
               (mjoin (replicate n (tdata (_tensor t)))))
            (e :: _names (_schema t)) =
          Ok (mkNamedTensor
                (mkTensor (n :: tshape (_tensor t))
                   (mjoin (replicate n (tdata (_tensor t)))))
                (mkSchema (e :: _names (_schema t))))) as Hinit.
  { unfold NamedTensor_init. rewrite decide_True by (by constructor).
    rewrite decide_True; [done|]. unfold rank in *. simpl. lia. }
  split_and!.
  - intros ->. eexists. reflexivity.
  - intros Hn. rewrite Hcat by done. apply Hinit.
  - intros ->. rewrite Hcat by lia. cbn [mbind result_bind].
    rewrite Hinit. cbn [replicate mjoin list_join]. by rewrite app_nil_r.
Qed.

Lemma mis_no_dims_witness :
  (wf ex_X ∧ _names (_schema ex_one_empty_row) = ["e"; "d"] ∧ "e" ≠ "d" ∧
   tshape (_tensor ex_one_empty_row) = [1; 0] ∧
   "e" ∉ _names (_schema ex_X)) ∧
  @multi_index_select torch_ref ex_X [] ex_one_empty_row =
    Ok (mkNamedTensor (mkTensor [1; 2; 3] [1; 2; 3; 4; 5; 6]%Z)
          (mkSchema ["e"; "i"; "k"])).
Proof.
  assert ("e" ∉ _names (_schema ex_X)) as He by by_decide.
  assert ("e" ≠ "d") as Hed by by_decide.
  split; [split_and!; [apply wf_ex_X|reflexivity|exact Hed|reflexivity|
                       exact He]|].
  destruct (mis_no_dims ex_X ex_one_empty_row "e" "d" [] 1 []
              wf_ex_X eq_refl Hed eq_refl He) as (_ & _ & Hone).
  exact (Hone eq_refl).
Defined.

(** * Further properties *)

(** ** [dot]: the names of the result *)

Lemma dot_names_spec `{Engine} (dims : list name)
    (tensors : list NamedTensor) (r : NamedTensor) :
  dot dims tensors = Ok r →
  NoDup (_names (_schema r)) ∧
  ∀ n, n ∈ _names (_schema r) ↔
       (∃ t, t ∈ tensors ∧ n ∈ _names (_schema t)) ∧ n ∉ dims.
Proof.
  intros Hr. apply dot_Ok in Hr. rewrite Hr. split.
  - apply NoDup_filter, NoDup_distinct.
  - intros n. rewrite list_elem_of_filter, elem_of_distinct, elem_of_all_names.
    tauto.
Qed.

Lemma dot_check_same_elements dims1 dims2 seen :
  (∀ n, n ∈ dims1 ↔ n ∈ dims2) →
  dot_check dims1 seen = Ok () → dot_check dims2 seen = Ok ().
Proof.
  intros Heq H1. apply dot_check_Ok. apply dot_check_Ok in H1.
  rewrite Forall_forall in *. intros n Hn. apply H1, Heq, Hn.
Qed.

(** X1. [dot] uses the contraction names as a set: when every name of
    [dims1] occurs in some operand, a tuple [dims2] with the same names, in
    any order and with any repetition, gives the same result, on every
    engine. *)
Theorem dot_dims_as_set `{Engine} (dims1 dims2 : list name)
    (tensors : list NamedTensor) :
  (∀ n, n ∈ dims1 ↔ n ∈ dims2) →
  Forall (λ n, ∃ t, t ∈ tensors ∧ n ∈ _names (_schema t)) dims1 →
  dot dims1 tensors = dot dims2 tensors.
Proof.
  intros Heq Hall. unfold dot, make_tuple.
  destruct (dot_ids_spec tensors) as (ids & -> & _).
  assert (dot_check dims1 (distinct (all_names tensors)) = Ok ()) as H1.
  { apply dot_check_Ok. eapply Forall_impl; [exact Hall|]. intros n Hn.
    by apply elem_of_distinct, elem_of_all_names. }
  rewrite H1, (dot_check_same_elements dims1 dims2 _ Heq H1).
  assert (filter (λ n, n ∉ dims1) (distinct (all_names tensors)) =
          filter (λ n, n ∉ dims2) (distinct (all_names tensors))) as ->; [|done].
  apply list_filter_iff. intros n. by rewrite Heq.
Qed.

Lemma dot_dims_as_set_witness :
  ((∀ n, n ∈ ["k"] ↔ n ∈ ["k"; "k"]) ∧
   Forall (λ n, ∃ t, t ∈ [ex_X; ex_Y] ∧ n ∈ _names (_schema t)) ["k"]) ∧
  @dot torch_ref ["k"] [ex_X; ex_Y] = @dot torch_ref ["k"; "k"] [ex_X; ex_Y].
Proof.
  assert (∀ n, n ∈ ["k"] ↔ n ∈ ["k"; "k"]) as Heq.
  { intros n. rewrite !elem_of_cons. tauto. }
  assert (Forall (λ n, ∃ t, t ∈ [ex_X; ex_Y] ∧ n ∈ _names (_schema t)) ["k"])
    as Hall.
  { repeat constructor. exists ex_X.
    split; [apply list_elem_of_here|by_decide]. }
  split; [by split|].
  exact (dot_dims_as_set (H:=torch_ref) ["k"] ["k"; "k"] [ex_X; ex_Y] Heq Hall).
Defined.

(** X2. The order of the operands decides the order of the axes of the
    result and nothing more: [dot] on a reordering of the operands returns
    the same names, reordered. *)
Theorem dot_operand_order `{Engine} (dims : list name)
    (tensors tensors' : list NamedTensor) (r r' : NamedTensor) :
  tensors ≡ₚ tensors' →
  dot dims tensors = Ok r → dot dims tensors' = Ok r' →
  _names (_schema r) ≡ₚ _names (_schema r').
Proof.
  intros Hp Hr Hr'.
  destruct (dot_names_spec dims tensors r Hr) as [Hnd Hin].
  destruct (dot_names_spec dims tensors' r' Hr') as [Hnd' Hin'].
  apply NoDup_Permutation; [done..|]. intros n. rewrite Hin, Hin'.
  split; intros [(t & Ht & Hn) Hd]; (split; [|done]); exists t;
    (split; [|done]); [by rewrite <-Hp|by rewrite Hp].
Qed.

Lemma dot_operand_order_witness :
  [ex_X; ex_Y] ≡ₚ [ex_Y; ex_X] ∧
  (∃ r', @dot torch_ref ["k"] [ex_Y; ex_X] = Ok r' ∧
         _names (_schema r') = ["j"; "i"] ∧
         _names (_schema ex_XY) ≡ₚ _names (_schema r')).
Proof.
  assert ([ex_X; ex_Y] ≡ₚ [ex_Y; ex_X]) as Hp by apply perm_swap.
  assert (@dot torch_ref ["k"] [ex_X; ex_Y] = Ok ex_XY) as Hdot
    by (vm_compute; reflexivity).
  split; [exact Hp|].
  eexists. split; [vm_compute; reflexivity|]. split; [reflexivity|].
  refine (dot_operand_order (H:=torch_ref) ["k"] [ex_X; ex_Y] [ex_Y; ex_X]
            ex_XY _ Hp Hdot _).
  vm_compute. reflexivity.
Defined.

(** ** [dot] on the reference engine *)

Lemma length_bind_const {A B} (g : A → list B) (l : list A) k :
  (∀ x, length (g x) = k) → length (l ≫= g) = length l * k.
Proof.
  intros Hg. induction l as [|x l IH]; [done|].
  rewrite bind_cons, length_app, Hg, IH. simpl. lia.
Qed.

Lemma length_all_indices sh : length (all_indices sh) = numel sh.
Proof.
  induction sh as [|n sh IH]; [done|]. cbn [all_indices].
  rewrite (length_bind_const _ _ (numel sh)).
  - by rewrite length_seq.
  - intros i. by rewrite length_fmap.
Qed.

Lemma length_tabulate sh f : length (tdata (tabulate sh f)) = numel sh.
Proof. unfold tabulate. cbn. by rewrite length_fmap, length_all_indices. Qed.







Lemma distinct_NoDup `{EqDecision A} (l : list A) : NoDup l → distinct l = l.
Proof.
  induction 1 as [|x l Hx _ IH]; [done|]. cbn [distinct]. rewrite IH.
  f_equal. apply filter_all, Forall_forall. intros y Hy ->. done.
Qed.

Lemma filter_none {A} (P : A → Prop) `{∀ x, Decision (P x)} (l : list A) :
  Forall (λ x, ¬ P x) l → filter P l = [].
Proof.
  induction 1 as [|x l Hx _ IH]; [done|].
  by rewrite filter_cons_False, IH.
Qed.

Lemma assoc_zip_seq {V} (l : list V) s n i :
  i < n → assoc (s + i) (zip (seq s n) l) = l !! i.
Proof.
  revert s n i. induction l as [|v l IH]; intros s n i Hi.
  - by destruct n.
  - destruct n as [|n]; [lia|]. cbn [seq zip zip_with assoc].
    destruct i as [|i].
    + by rewrite Nat.add_0_r, decide_True.
    + rewrite decide_False by lia.
      replace (s + S i) with (S s + i) by lia. apply IH. lia.
Qed.

Lemma fmap_assoc_zip_seq (l : list nat) :
  (λ i, default 0 (assoc i (zip (seq 0 (length l)) l))) <$> seq 0 (length l)
  = l.
Proof.
  etrans; [|apply (fmap_nth_seq l 0)].
  apply Forall_fmap_ext, Forall_seq. intros i Hi.
  pose proof (assoc_zip_seq l 0 (length l) i) as Ha. cbn in Ha.
  rewrite Ha by lia. by rewrite nth_lookup.
Qed.

Lemma numbered_ids_seq ids (names : list name) :
  numbered ids names → (λ n, ids !!! n) <$> names = seq 0 (length names).
Proof.
  intros Hnum. apply list_eq. intros i. rewrite list_lookup_fmap.
  destruct (names !! i) as [n|] eqn:Hn; cbn.
  - rewrite (numbered_lookup_total ids names n i Hnum Hn).
    symmetry. apply lookup_seq. split; [done|]. by eapply lookup_lt_Some.
  - symmetry. apply lookup_ge_None. rewrite length_seq.
    by apply lookup_ge_None.
Qed.

(** X4. [dot] with nothing to contract, on a single well-formed operand,
    returns the operand itself on the reference engine. *)
Theorem dot_single_operand (t : NamedTensor) :
  wf t → @dot torch_ref [] [t] = Ok t.
Proof.
  intros (Hnd & Hrank & Hlen).
  destruct (dot_unfold (H:=torch_ref) [] [t]) as (ids & Hnum & ->).
  assert (all_names [t] = _names (_schema t)) as Hall
    by (unfold all_names; by rewrite bind_singleton).
  rewrite Hall, distinct_NoDup in * by done. cbn zeta.
  rewrite filter_all by (apply Forall_forall; intros; apply not_elem_of_nil).
  cbn [dot_check mbind result_bind]. unfold dot_operands.
  cbn [fmap list_fmap]. rewrite (numbered_ids_seq ids _ Hnum), Hrank.
  destruct t as [[sh data] [names]]. unfold rank in *.
  cbn [_tensor _schema _names tshape tdata] in *.
  assert (ref_contract [(mkTensor sh data, seq 0 (length sh))]
            (seq 0 (length sh)) = Ok (mkTensor sh data)) as Hc.
  { unfold ref_contract. cbn [mbind list_bind tshape app].
    rewrite app_nil_r. rewrite decide_True; last first.
    { split_and!; [done| | |apply NoDup_seq|].
      - repeat constructor. unfold rank. cbn. by rewrite length_seq.
      - apply Forall_forall. intros [i s] Hin.
        apply elem_of_lookup_zip_with in Hin as (k & i' & s' & [= -> ->] & Hi & Hs).
        apply lookup_seq in Hi as [-> Hk]. cbn.
        pose proof (assoc_zip_seq sh 0 (length sh) k Hk) as Ha. cbn in Ha.
        by rewrite Ha.
      - rewrite fst_zip by (by rewrite length_seq).
        apply Forall_forall. by intros. }
    f_equal. rewrite fst_zip by (by rewrite length_seq).
    rewrite distinct_NoDup by apply NoDup_seq.
    rewrite (filter_none (λ i, i ∉ seq 0 (length sh)))
      by (apply Forall_forall; by intros i Hi Hni).
    rewrite fmap_assoc_zip_seq. unfold tabulate. f_equal.
    etrans; [|apply (tabulate_tget sh data Hlen)].
    apply Forall_fmap_ext, Forall_forall. intros idx Hidx.
    apply all_indices_spec in Hidx as [Hidx _].
    cbn [fmap list_fmap all_indices foldr]. rewrite !app_nil_r.
    rewrite <-Hidx, fmap_assoc_zip_seq. unfold tget. cbn [tshape tdata].
    lia. }
  cbn [contract torch_ref]. rewrite Hc. cbn [mbind result_bind].
  unfold ntorch_tensor, NamedTensor_init.
  rewrite decide_True by done. by rewrite decide_True by done.
Qed.

Lemma dot_single_operand_witness :
  wf ex_X ∧ @dot torch_ref [] [ex_X] = Ok ex_X.
Proof. split; [apply wf_ex_X|apply (dot_single_operand ex_X wf_ex_X)]. Defined.

(** ** [narrow] *)

Lemma Schema_get_Ok s n d : Schema_get s n = Ok d ↔ index_of n (_names s) = Some d.
Proof.
  unfold Schema_get. destruct (index_of n (_names s)); naive_solver.
Qed.

(** X5. [narrow] resolves [dim] in the schema of its operand before it
    calls the engine: an unknown [dim] raises the error of the lookup on
    every engine. When [narrow] returns, the result carries the names of
    the operand, unchanged and in the same order, and its tensor is the
    positional narrow of the operand's tensor at the position of [dim]. *)
Theorem narrow_schema `{Engine} `{EngineX} (tensor1 : NamedTensor)
    (dim : name) (start end_ : Z) :
  (∀ e, Schema_get (_schema tensor1) dim = Raise e →
        narrow tensor1 dim start end_ = Raise e) ∧
  (∀ r, narrow tensor1 dim start end_ = Ok r →
        _names (_schema r) = _names (_schema tensor1) ∧
        ∃ d, _names (_schema tensor1) !! d = Some dim ∧
             torch_narrow (_tensor tensor1) d start end_ = Ok (_tensor r)).
Proof.
  unfold narrow. split.
  - by intros e ->.
  - intros r Hr. apply bind_Ok in Hr as (d & Hd & Hr).
    apply bind_Ok in Hr as (raw & Hraw & Hr).
    rewrite _new_no_updates in Hr.
    apply NamedTensor_init_Ok in Hr as (_ & _ & ->). split; [done|].
    exists d. split; [|done].
    by apply index_of_Some, Schema_get_Ok.
Qed.

(** *** Shapes and blocks *)

Lemma numel_app sh1 sh2 : numel (sh1 ++ sh2) = numel sh1 * numel sh2.
Proof.
  induction sh1 as [|n sh1 IH]; cbn [app]; [unfold numel at 2; simpl; lia|].
  rewrite !numel_cons, IH. lia.
Qed.

(** The entries of a tensor split at axis [d]: the leading multi-indices,
    the axis, and the trailing multi-indices. *)
Lemma numel_split sh d n :
  sh !! d = Some n →
  numel sh = numel (take d sh) * (n * numel (drop (S d) sh)).
Proof.
  intros Hd. rewrite <-(take_drop d sh) at 1.
  by rewrite numel_app, (drop_S _ _ _ Hd), numel_cons.
Qed.

Lemma size_at_lookup t d n : tshape t !! d = Some n → size_at t d = n.
Proof. intros Hd. unfold size_at. by rewrite (nth_lookup_Some _ _ _ _ Hd). Qed.

Lemma numel_take_insert sh d x : numel (take d (<[d:=x]> sh)) = numel (take d sh).
Proof. by rewrite take_insert_ge. Qed.

Lemma numel_drop_insert sh d n x :
  sh !! d = Some n →
  numel (drop d (<[d:=x]> sh)) = x * numel (drop (S d) sh).
Proof.
  intros Hd. assert (<[d:=x]> sh !! d = Some x) as Hx.
  { apply list_lookup_insert_eq. by eapply lookup_lt_Some. }
  by rewrite (drop_S _ _ _ Hx), numel_cons, drop_insert_lt by lia.
Qed.

Lemma length_bind_Forall {A B} (g : A → list B) (l : list A) k :
  Forall (λ x, length (g x) = k) l → length (l ≫= g) = length l * k.
Proof.
  induction 1 as [|x l Hx _ IH]; [done|].
  rewrite bind_cons, length_app, Hx, IH. simpl. lia.
Qed.

(** The [o]-th block of a list made of chunks of one length is the [o]-th
    chunk. *)
Lemma block_bind (f : nat → list Z) k s m o :
  (∀ i, s ≤ i < s + m → length (f i) = k) → o < m →
  block k o (i ← seq s m; f i) = f (s + o).
Proof.
  revert s o. induction m as [|m IH]; intros s o Hlen Ho; [lia|].
  cbn [seq]. rewrite bind_cons. unfold block. destruct o as [|o].
  - rewrite Nat.add_0_r. simpl. apply take_app_length'. symmetry.
    apply Hlen. lia.
  - rewrite drop_app_ge by (rewrite Hlen by lia; simpl; lia).
    rewrite Hlen by lia. replace (S o * k - k) with (o * k) by (simpl; lia).
    replace (s + S o) with (S s + o) by lia.
    apply (IH (S s) o); [|lia]. intros i Hi. apply Hlen. lia.
Qed.

Lemma index_of_NoDup `{EqDecision A} (l : list A) i x :
  NoDup l → l !! i = Some x → index_of x l = Some i.
Proof.
  intros Hnd Hi. destruct (index_of x l) as [j|] eqn:Hj.
  - apply index_of_Some in Hj. f_equal.
    by eapply NoDup_lookup.
  - apply index_of_None in Hj. exfalso. apply Hj.
    by eapply list_elem_of_lookup_2.
Qed.

(** *** The reference [narrow] *)

Section RefNarrow.
Context (t : Tensor) (d n : nat).
Hypothesis Hlen : length (tdata t) = numel (tshape t).
Hypothesis Hd : tshape t !! d = Some n.

Local Abbreviation inner := (numel (drop (S d) (tshape t))).
Local Abbreviation outer := (numel (take d (tshape t))).

Lemma length_narrow_chunk (s k o : nat) :
  s + k ≤ n → o < outer →
  length (take (k * inner) (drop ((o * n + s) * inner) (tdata t)))
  = k * inner.
Proof.
  intros Hsk Ho. rewrite length_take, length_drop, Hlen, (numel_split _ _ _ Hd).
  generalize dependent inner. generalize dependent outer. intros O Ho I.
  assert (o * n + s + k ≤ O * n) as Hle by nia.
  apply (Nat.mul_le_mono_r _ _ I) in Hle. lia.
Qed.

Lemma ref_narrow_Ok (s k : nat) :
  s + k ≤ n →
  ref_narrow t d (Z.of_nat s) (Z.of_nat k) =
    Ok (mkTensor (<[d := k]> (tshape t))
          (o ← seq 0 outer;
           take (k * inner) (drop ((o * n + s) * inner) (tdata t)))).
Proof.
  intros Hsk. unfold ref_narrow.
  rewrite decide_True by (unfold rank; by eapply lookup_lt_Some).
  rewrite (size_at_lookup _ _ _ Hd).
  assert (norm_start n (Z.of_nat s) = Some s) as ->.
  { unfold norm_start, norm_index. case_decide as Hs; [f_equal; lia|].
    rewrite decide_True by lia. by rewrite Nat2Z.id. }
  rewrite decide_True by lia. by rewrite Nat2Z.id.
Qed.

Lemma length_ref_narrow_data (s k : nat) :
  s + k ≤ n →
  length (o ← seq 0 outer;
          take (k * inner) (drop ((o * n + s) * inner) (tdata t)))
  = numel (<[d := k]> (tshape t)).
Proof.
  intros Hsk. rewrite (length_bind_Forall _ _ (k * inner)).
  - rewrite length_seq.
    assert (<[d:=k]> (tshape t) !! d = Some k) as Hx
      by (apply list_lookup_insert_eq; by eapply lookup_lt_Some).
    rewrite (numel_split _ _ _ Hx), take_insert_ge, drop_insert_lt by lia.
    done.
  - apply Forall_seq. intros o Ho. apply length_narrow_chunk; [done|lia].
Qed.

End RefNarrow.

(** [narrow] on a well-formed operand, on the reference engine. *)
Lemma narrow_ref (t : NamedTensor) (dim : name) (d n s k : nat) :
  wf t → _names (_schema t) !! d = Some dim →
  tshape (_tensor t) !! d = Some n → s + k ≤ n →
  narrow t dim (Z.of_nat s) (Z.of_nat k) =
    Ok (mkNamedTensor
          (mkTensor (<[d := k]> (tshape (_tensor t)))
             (o ← seq 0 (numel (take d (tshape (_tensor t))));
              take (k * numel (drop (S d) (tshape (_tensor t))))
                   (drop ((o * n + s) * numel (drop (S d) (tshape (_tensor t))))
                         (tdata (_tensor t)))))
          (_schema t)).
Proof.
  intros (Hnd & Hrank & Hlen) Hdim Hd Hsk. unfold narrow.
  rewrite (proj2 (Schema_get_Ok _ _ d)) by (by apply index_of_NoDup).
  cbn [mbind result_bind torch_narrow torch_refX].
  rewrite (ref_narrow_Ok _ d n Hlen Hd s k Hsk). cbn [mbind result_bind].
  rewrite _new_no_updates. unfold NamedTensor_init.
  rewrite decide_True by done.
  rewrite decide_True by (unfold rank in *; cbn; by rewrite length_insert).
  by destruct t as [? []].
Qed.

(** X6. The fourth argument of [narrow] is the number of entries kept, not
    the index at which the slice ends: on the reference engine, for a
    well-formed operand and a slice that fits, the axis named [dim] of the
    result has that many entries, every other axis keeps its size, the
    names are unchanged, and the result is well formed. *)
Theorem narrow_length (t : NamedTensor) (dim : name) (d n s k : nat) :
  wf t → _names (_schema t) !! d = Some dim →
  tshape (_tensor t) !! d = Some n → s + k ≤ n →
  ∃ r, narrow t dim (Z.of_nat s) (Z.of_nat k) = Ok r ∧
       wf r ∧ _names (_schema r) = _names (_schema t) ∧
       tshape (_tensor r) = <[d := k]> (tshape (_tensor t)).
Proof.
  intros Hwf Hdim Hd Hsk. eexists. split; [by eapply narrow_ref|].
  destruct Hwf as (Hnd & Hrank & Hlen). split_and!; [|done..].
  unfold wf. split_and!; [done| |].
  - unfold rank in *. cbn. by rewrite length_insert.
  - cbn [_tensor tdata tshape]. by eapply length_ref_narrow_data.
Qed.

Lemma narrow_length_witness :
  (wf ex_X ∧ _names (_schema ex_X) !! 1 = Some "k" ∧
   tshape (_tensor ex_X) !! 1 = Some 3 ∧ 1 + 2 ≤ 3) ∧
  ∃ r, narrow ex_X "k" 1 2 = Ok r ∧
       wf r ∧ _names (_schema r) = _names (_schema ex_X) ∧
       tshape (_tensor r) = [2; 2].
Proof.
  split; [split_and!; [apply wf_ex_X|reflexivity|reflexivity|lia]|].
  apply (narrow_length ex_X "k" 1 3 1 2 wf_ex_X eq_refl eq_refl). lia.
Defined.

Lemma narrow_schema_witness :
  (Schema_get (_schema ex_X) "z" = Raise (UnknownDimensionError "z") ∧
   narrow ex_X "z" 0 1 = Raise (UnknownDimensionError "z")) ∧
  (narrow ex_X "k" 1 2 =
     Ok (mkNamedTensor (mkTensor [2; 2] [2; 3; 5; 6]%Z) (mkSchema ["i"; "k"])) ∧
   _names (_schema (mkNamedTensor (mkTensor [2; 2] [2; 3; 5; 6]%Z)
                      (mkSchema ["i"; "k"]))) = _names (_schema ex_X)).
Proof.
  split.
  - assert (Schema_get (_schema ex_X) "z" = Raise (UnknownDimensionError "z"))
      as Hz by reflexivity.
    split; [exact Hz|].
    exact (proj1 (narrow_schema ex_X "z" 0 1) _ Hz).
  - assert (narrow ex_X "k" 1 2 =
              Ok (mkNamedTensor (mkTensor [2; 2] [2; 3; 5; 6]%Z)
                    (mkSchema ["i"; "k"]))) as Hrun by (vm_compute; reflexivity).
    split; [exact Hrun|].
    exact (proj1 (proj2 (narrow_schema ex_X "k" 1 2) _ Hrun)).
Defined.

(** ** [narrow] and [cat] *)

(** X7. Cutting a well-formed tensor in two along a named axis with
    [narrow] and joining the parts along the same name with [cat] gives the
    tensor back, on the reference engine. *)
Theorem narrow_cat_roundtrip (t : NamedTensor) (dim : name) (d n k : nat) :
  wf t → _names (_schema t) !! d = Some dim →
  tshape (_tensor t) !! d = Some n → k ≤ n →
  ∃ a b, narrow t dim 0 (Z.of_nat k) = Ok a ∧
         narrow t dim (Z.of_nat k) (Z.of_nat (n - k)) = Ok b ∧
         cat [a; b] dim = Ok t.
Proof.
  intros Hwf Hdim Hd Hk.
  pose proof (narrow_ref t dim d n 0 k Hwf Hdim Hd) as Ha.
  pose proof (narrow_ref t dim d n k (n - k) Hwf Hdim Hd) as Hb.
  do 2 eexists. split_and!; [apply Ha; lia|apply Hb; lia|].
  destruct Hwf as (Hnd & Hrank & Hlen).
  destruct t as [[sh data] [names]]. unfold rank in *.
  cbn [_tensor _schema _names tshape tdata] in *. clear Ha Hb.
  set (inner := numel (drop (S d) sh)). set (outer := numel (take d sh)).
  unfold cat. cbn [_schema _names].
  rewrite (proj2 (Schema_get_Ok _ _ d)) by (by apply index_of_NoDup).
  cbn [mbind result_bind cat_check _schema _names].
  rewrite decide_True by done. cbn [mbind result_bind].
  cbn [fmap list_fmap values _tensor torch_cat torch_ref].
  unfold ref_cat. cbn [tshape tdata].
  rewrite decide_True; last first.
  { split.
    - unfold rank. cbn. rewrite length_insert. by eapply lookup_lt_Some.
    - repeat constructor; cbn; by rewrite !list_insert_insert_eq. }
  cbn [mbind result_bind]. rewrite _new_no_updates.
  assert (∀ x, size_at (mkTensor (<[d:=x]> sh) []) d = x) as Hsz.
  { intros x. apply size_at_lookup. apply list_lookup_insert_eq.
    by eapply lookup_lt_Some. }
  unfold size_at in *. cbn [tshape fmap list_fmap sum_list sum_list_with] in *.
  rewrite !Hsz. rewrite list_insert_insert_eq.
  replace (id k + (id (n - k) + 0)) with n by (unfold id; lia).
  rewrite (list_insert_id _ _ _ Hd).
  rewrite take_insert_ge by lia. fold outer. cbn [_schema _names].
  match goal with
  | |- NamedTensor_init {| tshape := _; tdata := ?B |} _ = _ =>
      assert (B = data) as ->
  end.
  { etrans; [|apply (blocks_whole data (n * inner) outer)].
    2: { rewrite Hlen. rewrite (numel_split _ _ _ Hd). done. }
    apply Forall_bind_ext, Forall_seq. intros o Ho.
    cbn [list_bind tshape tdata app]. rewrite app_nil_r.
    rewrite !(numel_drop_insert _ _ n) by done. fold inner.
    assert (∀ s' k' i, s' + k' ≤ n → i < outer →
              length (take (k' * inner) (drop ((i * n + s') * inner) data))
              = k' * inner) as Hchunk.
    { intros s' k' i Hs Hi.
      by apply (length_narrow_chunk (mkTensor sh data) d n Hlen Hd). }
    rewrite (block_bind _ (k * inner) 0 outer o);
      [|intros i Hi; apply Hchunk; lia|lia].
    rewrite (block_bind _ ((n - k) * inner) 0 outer o);
      [|intros i Hi; apply Hchunk; lia|lia].
    cbn [Nat.add]. unfold block.
    replace ((o * n + k) * inner) with ((o * n + 0) * inner + k * inner) by lia.
    rewrite <-drop_drop, take_take_drop.
    replace (k * inner + (n - k) * inner) with (n * inner) by nia.
    by replace ((o * n + 0) * inner) with (o * (n * inner)) by nia. }
  unfold NamedTensor_init. rewrite decide_True by done.
  by rewrite decide_True by done.
Qed.

Lemma narrow_cat_roundtrip_witness :
  (wf ex_X ∧ _names (_schema ex_X) !! 1 = Some "k" ∧
   tshape (_tensor ex_X) !! 1 = Some 3 ∧ 1 ≤ 3) ∧
  ∃ a b, narrow ex_X "k" 0 1 = Ok a ∧ narrow ex_X "k" 1 2 = Ok b ∧
         cat [a; b] "k" = Ok ex_X.
Proof.
  split; [split_and!; [apply wf_ex_X|reflexivity|reflexivity|lia]|].
  apply (narrow_cat_roundtrip ex_X "k" 1 3 1 wf_ex_X eq_refl eq_refl). lia.
Defined.

(** ** [multi_index_select] after its checks *)

Lemma filter_fmap {A B} (f : A → B) (P : B → Prop) `{∀ y, Decision (P y)}
    (l : list A) :
  filter P (f <$> l) = f <$> filter (λ x, P (f x)) l.
Proof.
  induction l as [|x l IH]; [done|]. cbn [fmap list_fmap].
  rewrite !filter_cons, IH. by case_decide.
Qed.

Lemma filter_ext_in {A} (P Q : A → Prop) `{∀ x, Decision (P x)}
    `{∀ x, Decision (Q x)} (l : list A) :
  (∀ x, x ∈ l → P x ↔ Q x) → filter P l = filter Q l.
Proof.
  induction l as [|x l IH]; intros Heq; [done|].
  rewrite !filter_cons, IH by (intros y Hy; apply Heq; by right).
  pose proof (Heq x (list_elem_of_here x l)).
  repeat case_decide; tauto || done.
Qed.

Lemma mapM_Ok {A B} (f : A → result B) l k :
  mapM f l = Ok k ↔ Forall2 (λ x y, f x = Ok y) l k.
Proof.
  revert k. induction l as [|x l IH]; intros k; cbn [mapM].
  - split; [intros [= <-]; constructor|by inversion 1].
  - split.
    + intros Hk. apply bind_Ok in Hk as (y & Hy & Hk).
      apply bind_Ok in Hk as (k' & Hk' & [= <-]).
      constructor; [done|by apply IH].
    + inversion 1 as [|? y ? k' Hy Hk']; subst. rewrite Hy.
      cbn [mbind result_bind]. apply IH in Hk'. by rewrite Hk'.
Qed.

Lemma mis_remaining_spec names md :
  mis_remaining names md =
  (filter (λ i, i ∉ md) (seq 0 (length names)),
   (filter (λ p, p.1 ∉ md) (zip (seq 0 (length names)) names)).*2).
Proof.
  unfold mis_remaining.
  assert (∀ s rd rn,
    foldl (λ '(remaining_dims, remaining_names) '(i, name),
             if decide (i ∉ md)
             then (remaining_dims ++ [i], remaining_names ++ [name])
             else (remaining_dims, remaining_names))
          (rd, rn) (zip (seq s (length names)) names) =
    (rd ++ filter (λ i, i ∉ md) (seq s (length names)),
     rn ++ (filter (λ p, p.1 ∉ md) (zip (seq s (length names)) names)).*2))
    as Hgen.
  { induction names as [|n names IH]; intros s rd rn.
    - by rewrite !app_nil_r.
    - cbn [length seq zip zip_with foldl]. rewrite !filter_cons.
      cbn [fst]. destruct (decide (s ∉ md)).
      + rewrite IH. cbn [fmap list_fmap snd]. by rewrite <-!app_assoc.
      + by rewrite IH. }
  apply (Hgen 0 [] []).
Qed.

Section MisAfterChecks.
Context (names dims : list name) (md : list nat).
Hypothesis Hnames : NoDup names.
Hypothesis Hmd : Forall2 (λ d i, index_of d names = Some i) dims md.

Lemma match_dims_elem i n :
  names !! i = Some n → i ∈ md ↔ n ∈ dims.
Proof.
  intros Hi. split.
  - intros Hin. apply list_elem_of_lookup in Hin as [j Hj].
    destruct (Forall2_lookup_r _ _ _ _ _ Hmd Hj) as (d & Hd & Hidx).
    apply index_of_Some in Hidx. rewrite Hi in Hidx. injection Hidx as ->.
    by eapply list_elem_of_lookup_2.
  - intros Hin. apply list_elem_of_lookup in Hin as [j Hj].
    destruct (Forall2_lookup_l _ _ _ _ _ Hmd Hj) as (i' & Hi' & Hidx).
    apply index_of_Some in Hidx.
    rewrite (NoDup_lookup _ _ _ _ Hnames Hi Hidx).
    by eapply list_elem_of_lookup_2.
Qed.

Lemma remaining_names_filter :
  (filter (λ p, p.1 ∉ md) (zip (seq 0 (length names)) names)).*2 =
  filter (λ n, n ∉ dims) names.
Proof.
  trans (filter (λ n, n ∉ dims) ((zip (seq 0 (length names)) names).*2));
    [|by rewrite snd_zip by (by rewrite length_seq)].
  rewrite filter_fmap. f_equal. apply filter_ext_in.
  intros [i n] Hin. cbn.
  apply elem_of_lookup_zip_with in Hin as (k & i' & n' & [= -> ->] & Hi & Hn).
  apply lookup_seq in Hi as [-> _]. cbn in *.
  by rewrite (match_dims_elem k n' Hn).
Qed.

Lemma match_dims_NoDup : NoDup dims → NoDup md.
Proof.
  intros Hdims. apply NoDup_alt. intros i j x Hi Hj.
  destruct (Forall2_lookup_r _ _ _ _ _ Hmd Hi) as (d1 & Hd1 & H1).
  destruct (Forall2_lookup_r _ _ _ _ _ Hmd Hj) as (d2 & Hd2 & H2).
  apply index_of_Some in H1, H2. rewrite H1 in H2. injection H2 as ->.
  by eapply NoDup_lookup.
Qed.

Lemma permute_idx_Permutation :
  NoDup dims →
  md ++ filter (λ i, i ∉ md) (seq 0 (length names)) ≡ₚ seq 0 (length names).
Proof.
  intros Hdims.
  rewrite <-(filter_app_complement (λ i, i ∈ md) (seq 0 (length names))) at 2.
  apply Permutation_app; [|done].
  apply NoDup_Permutation.
  - by apply match_dims_NoDup.
  - apply NoDup_filter, NoDup_seq.
  - intros i. rewrite list_elem_of_filter, elem_of_seq. split; [|tauto].
    intros Hi. split; [done|]. split; [lia|].
    apply list_elem_of_lookup in Hi as [j Hj].
    destruct (Forall2_lookup_r _ _ _ _ _ Hmd Hj) as (d & _ & Hidx).
    apply index_of_Some in Hidx. cbn. by eapply lookup_lt_Some.
Qed.

End MisAfterChecks.

Lemma match_dims_exists (names dims : list name) :
  Forall (λ d, d ∈ names) dims →
  ∃ md, Forall2 (λ d i, index_of d names = Some i) dims md.
Proof.
  induction 1 as [|d dims Hd _ [md IH]]; [by exists []|].
  destruct (index_of d names) as [i|] eqn:Hi.
  - exists (i :: md). by constructor.
  - by apply index_of_None in Hi.
Qed.

Lemma mis_pipeline `{Engine} (tensor : NamedTensor) (dims : list name)
    (indices : NamedTensor) (e index_dim : name) :
  _names (_schema indices) !! 0 = Some e →
  _names (_schema indices) !! 1 = Some index_dim →
  assoc index_dim (shape indices) = Some (length dims) →
  length dims ≤ length (shape tensor) →
  NoDup dims → Forall (λ d, d ∈ _names (_schema tensor)) dims →
  NoDup (_names (_schema tensor)) →
  ∃ match_dims,
    let names := _names (_schema tensor) in
    let permute_idx :=
      match_dims ++ filter (λ i, i ∉ match_dims) (seq 0 (length names)) in
    Forall2 (λ d i, names !! i = Some d) dims match_dims ∧
    permute_idx ≡ₚ seq 0 (length names) ∧
    multi_index_select tensor dims indices =
      (vals ← permute (values tensor) permute_idx;
       rows ← iter (values indices);
       tensors ← mapM (λ idx, v ← getitem vals idx; unsqueeze v 0) rows;
       tensors ← torch_cat tensors 0;
       ntorch_tensor tensors (e :: filter (λ n, n ∉ dims) names)).
Proof.
  intros He Hdim Hsz Hle Hdims Hall Hnames.
  destruct (match_dims_exists _ _ Hall) as [md Hmd].
  exists md. cbn zeta. split_and!.
  - eapply Forall2_impl; [exact Hmd|]. intros d i. apply index_of_Some.
  - by eapply permute_idx_Permutation.
  - unfold multi_index_select, tuple_get, shape_at.
    rewrite Hdim. cbn [mbind result_bind]. rewrite Hsz.
    cbn [mbind result_bind]. rewrite decide_False by (by intros ?).
    rewrite decide_False by lia.
    rewrite decide_False
      by (rewrite size_list_to_set_lt; by intros Hn; apply Hn).
    destruct (mis_check_spec dims (_names (_schema tensor)))
      as [[_ ->]|(pre & m & post & -> & _ & Hm & _)]; last first.
    { exfalso. apply Hm. apply Forall_app in Hall as [_ Hall].
      by apply Forall_cons in Hall as [? _]. }
    cbn [mbind result_bind].
    assert (mapM (tuple_index (_names (_schema tensor))) dims = Ok md) as ->.
    { apply mapM_Ok. eapply Forall2_impl; [exact Hmd|]. intros d i Hi.
      unfold tuple_index. by rewrite Hi. }
    cbn [mbind result_bind]. rewrite mis_remaining_spec.
    rewrite (remaining_names_filter _ dims md Hnames Hmd).
    destruct (permute _ _); [|done]. cbn [mbind result_bind].
    destruct (iter _); [|done]. cbn [mbind result_bind].
    destruct (mapM _ _); [|done]. cbn [mbind result_bind].
    destruct (torch_cat _ _); [|done]. cbn [mbind result_bind].
    by rewrite He.
Qed.

(** X13. Once its checks have passed, [multi_index_select] asks the engine
    for one permutation of the axes of the tensor: the positions of [dims],
    in the order of [dims], followed by the other positions in increasing
    order, which together are a permutation of all positions. The result
    is then named by the first name of [indices] followed by the names of
    the tensor that are not in [dims], in the order they have in the
    tensor. *)
Theorem mis_after_checks `{Engine} (tensor : NamedTensor) (dims : list name)
    (indices : NamedTensor) (e index_dim : name) :
  _names (_schema indices) !! 0 = Some e →
  _names (_schema indices) !! 1 = Some index_dim →
  assoc index_dim (shape indices) = Some (length dims) →
  length dims ≤ length (shape tensor) →
  NoDup dims → Forall (λ d, d ∈ _names (_schema tensor)) dims →
  NoDup (_names (_schema tensor)) →
  ∃ match_dims,
    let names := _names (_schema tensor) in
    let permute_idx :=
      match_dims ++ filter (λ i, i ∉ match_dims) (seq 0 (length names)) in
    Forall2 (λ d i, names !! i = Some d) dims match_dims ∧
    permute_idx ≡ₚ seq 0 (length names) ∧
    multi_index_select tensor dims indices =
      (vals ← permute (values tensor) permute_idx;
       rows ← iter (values indices);
       tensors ← mapM (λ idx, v ← getitem vals idx; unsqueeze v 0) rows;
       tensors ← torch_cat tensors 0;
       ntorch_tensor tensors (e :: filter (λ n, n ∉ dims) names)).
Proof. apply mis_pipeline. Qed.

Lemma mis_Ok_checks `{Engine} (tensor : NamedTensor) (dims : list name)
    (indices r : NamedTensor) :
  multi_index_select tensor dims indices = Ok r →
  ∃ e index_dim rest,
    _names (_schema indices) = e :: index_dim :: rest ∧
    assoc index_dim (shape indices) = Some (length dims) ∧
    length dims ≤ length (shape tensor) ∧
    NoDup dims ∧
    Forall (λ d, d ∈ _names (_schema tensor)) dims.
Proof.
  intros Hr.
  destruct (_names (_schema indices)) as [|e [|index_dim rest]] eqn:Hin.
  1,2: by unfold multi_index_select, tuple_get in Hr; rewrite Hin in Hr.
  assert (_names (_schema indices) !! 1 = Some index_dim) as Hdim
    by (by rewrite Hin).
  destruct (assoc index_dim (shape indices)) as [sz|] eqn:Hsz; last first.
  { unfold multi_index_select, tuple_get, shape_at in Hr.
    rewrite Hdim in Hr. cbn [mbind result_bind] in Hr. by rewrite Hsz in Hr. }
  destruct (decide (length dims = sz)) as [<-|Hne]; last first.
  { by rewrite (mis_size_mismatch _ _ _ index_dim sz Hdim Hsz) in Hr. }
  destruct (decide (length (shape tensor) < length dims)) as [Hlt|Hle].
  { by rewrite (mis_rank_short _ _ _ index_dim _ Hdim Hsz) in Hr. }
  destruct (decide (NoDup dims)) as [Hdims|Hdup]; last first.
  { rewrite (mis_duplicate _ _ _ index_dim _ Hdim Hsz) in Hr; [done..|lia|done]. }
  destruct (mis_check_spec dims (_names (_schema tensor)))
    as [[Hall _]|(pre & m & post & Hd & Hpre & Hm & _)]; last first.
  { rewrite (mis_unknown _ _ _ index_dim _ Hdim Hsz pre m post) in Hr;
      [done..|lia|done|done|done|done]. }
  exists e, index_dim, rest. split_and!; [done..|lia|done|done].
Qed.

(** X14. A result of [multi_index_select] is evidence that the call was
    valid: [dims] has no duplicate, each of [dims] names an axis of the
    tensor, [indices] has at least two names and its second axis has one
    entry for each of [dims]. The result is named by the first name of
    [indices] followed by the names of the tensor that [dims] leaves out,
    in their order in the tensor. *)
Theorem mis_Ok_inv `{Engine} (tensor : NamedTensor) (dims : list name)
    (indices r : NamedTensor) :
  NoDup (_names (_schema tensor)) →
  multi_index_select tensor dims indices = Ok r →
  NoDup dims ∧
  Forall (λ d, d ∈ _names (_schema tensor)) dims ∧
  ∃ e index_dim rest,
    _names (_schema indices) = e :: index_dim :: rest ∧
    assoc index_dim (shape indices) = Some (length dims) ∧
    _names (_schema r) =
      e :: filter (λ n, n ∉ dims) (_names (_schema tensor)).
Proof.
  intros Hnames Hr.
  destruct (mis_Ok_checks _ _ _ _ Hr)
    as (e & index_dim & rest & Hin & Hsz & Hle & Hdims & Hall).
  split_and!; [done..|]. exists e, index_dim, rest. split_and!; [done..|].
  destruct (mis_pipeline tensor dims indices e index_dim)
    as (md & _ & _ & Heq); [by rewrite Hin..|done|done|done|done|done|].
  rewrite Heq in Hr.
  apply bind_Ok in Hr as (? & _ & Hr). apply bind_Ok in Hr as (? & _ & Hr).
  apply bind_Ok in Hr as (? & _ & Hr). apply bind_Ok in Hr as (? & _ & Hr).
  by apply NamedTensor_init_Ok in Hr as (_ & _ & ->).
Qed.

Lemma mis_Ok_inv_witness :
  (NoDup (_names (_schema ex_X)) ∧
   @multi_index_select torch_ref ex_X ["i"] ex_rows =
     Ok (mkNamedTensor (mkTensor [2; 3] [4; 5; 6; 1; 2; 3]%Z)
           (mkSchema ["e"; "k"]))) ∧
  ∃ e index_dim rest,
    _names (_schema ex_rows) = e :: index_dim :: rest ∧
    assoc index_dim (shape ex_rows) = Some (length ["i"]) ∧
    ["e"; "k"] = e :: filter (λ n, n ∉ ["i"]) (_names (_schema ex_X)).
Proof.
  assert (NoDup (_names (_schema ex_X))) as Hnd by by_decide.
  assert (@multi_index_select torch_ref ex_X ["i"] ex_rows =
            Ok (mkNamedTensor (mkTensor [2; 3] [4; 5; 6; 1; 2; 3]%Z)
                  (mkSchema ["e"; "k"]))) as Hrun by (vm_compute; reflexivity).
  split; [by split|].
  exact (proj2 (proj2 (mis_Ok_inv (H:=torch_ref) ex_X ["i"] ex_rows _ Hnd Hrun))).
Defined.

Lemma mis_after_checks_witness :
  (_names (_schema ex_rows) !! 0 = Some "e" ∧
   _names (_schema ex_rows) !! 1 = Some "d" ∧
   assoc "d" (shape ex_rows) = Some (length ["k"]) ∧
   length ["k"] ≤ length (shape ex_X) ∧
   NoDup ["k"] ∧ Forall (λ d, d ∈ _names (_schema ex_X)) ["k"] ∧
   NoDup (_names (_schema ex_X))) ∧
  ∃ match_dims,
    Forall2 (λ d i, _names (_schema ex_X) !! i = Some d) ["k"] match_dims ∧
    match_dims ++ filter (λ i, i ∉ match_dims) (seq 0 2) ≡ₚ seq 0 2 ∧
    @multi_index_select torch_ref ex_X ["k"] ex_rows =
      (vals ← permute (values ex_X)
                (match_dims ++ filter (λ i, i ∉ match_dims) (seq 0 2));
       rows ← iter (values ex_rows);
       tensors ← mapM (λ idx, v ← getitem vals idx; unsqueeze v 0) rows;
       tensors ← torch_cat tensors 0;
       ntorch_tensor tensors
         ("e" :: filter (λ n, n ∉ ["k"]) (_names (_schema ex_X)))).
Proof.
  assert (NoDup ["k"]) as Hk by by_decide.
  assert (Forall (λ d, d ∈ _names (_schema ex_X)) ["k"]) as Hall
    by (repeat constructor; by_decide).
  assert (NoDup (_names (_schema ex_X))) as Hnd by by_decide.
  assert (length ["k"] ≤ length (shape ex_X)) as Hle by (cbn; lia).
  split; [by split_and!|].
  exact (mis_after_checks (H:=torch_ref) ex_X ["k"] ex_rows "e" "d"
           eq_refl eq_refl eq_refl Hle Hk Hall Hnd).
Defined.

(** ** [multi_index_select] on the reference engine *)

Lemma Permutation_seq_valid (perm : list nat) n :
  perm ≡ₚ seq 0 n →
  NoDup perm ∧ length perm = n ∧ Forall (λ p, p < n) perm.
Proof.
  intros Hp. split_and!.
  - rewrite Hp. apply NoDup_seq.
  - by rewrite Hp, length_seq.
  - rewrite Hp. apply Forall_seq. intros; lia.
Qed.

(** X15. With an index tensor that has no row, [multi_index_select] has
    nothing to concatenate: on the reference engine a call that passes the
    checks raises in the positional concatenation instead of returning an
    empty selection. *)
Theorem mis_no_rows (tensor : NamedTensor) (dims : list name)
    (indices : NamedTensor) (e index_dim : name) (sh : list nat) :
  wf tensor →
  _names (_schema indices) !! 0 = Some e →
  _names (_schema indices) !! 1 = Some index_dim →
  assoc index_dim (shape indices) = Some (length dims) →
  NoDup dims → Forall (λ d, d ∈ _names (_schema tensor)) dims →
  tshape (_tensor indices) = 0 :: sh →
  ∃ msg, @multi_index_select torch_ref tensor dims indices =
           Raise (EngineError msg).
Proof.
  intros (Hnd & Hrank & Hlen) He Hdim Hsz Hdims Hall Hsh.
  assert (length dims ≤ length (_names (_schema tensor))) as Hle.
  { rewrite <-(size_list_to_set (C:=gset name) dims Hdims).
    rewrite <-(size_list_to_set (C:=gset name) _ Hnd).
    apply subseteq_size. intros d. rewrite !elem_of_list_to_set.
    rewrite Forall_forall in Hall. apply Hall. }
  destruct (mis_pipeline (H:=torch_ref) tensor dims indices e index_dim)
    as (md & _ & Hperm & ->); [done..| |done|done|done|].
  { unfold shape. rewrite length_zip_with. unfold rank in Hrank. lia. }
  cbn zeta in *. cbn [permute torch_ref]. unfold ref_permute.
  rewrite Hrank in Hperm. apply Permutation_seq_valid in Hperm.
  rewrite Hrank. rewrite decide_True by done.
  cbn [mbind result_bind iter torch_ref]. unfold values, ref_iter.
  rewrite Hsh. cbn [seq fmap list_fmap mbind result_bind mapM mret result_ret].
  cbn [torch_cat torch_ref ref_cat]. eauto.
Qed.

Lemma mis_no_rows_witness :
  (wf ex_X ∧
   _names (_schema (mkNamedTensor (mkTensor [0; 1] []) (mkSchema ["e"; "d"])))
     !! 0 = Some "e" ∧
   NoDup ["i"] ∧ Forall (λ d, d ∈ _names (_schema ex_X)) ["i"]) ∧
  ∃ msg, @multi_index_select torch_ref ex_X ["i"]
           (mkNamedTensor (mkTensor [0; 1] []) (mkSchema ["e"; "d"])) =
           Raise (EngineError msg).
Proof.
  assert (NoDup ["i"]) as Hi by by_decide.
  assert (Forall (λ d, d ∈ _names (_schema ex_X)) ["i"]) as Hall
    by (repeat constructor; by_decide).
  split; [by split_and!; [apply wf_ex_X|..]|].
  exact (mis_no_rows ex_X ["i"]
           (mkNamedTensor (mkTensor [0; 1] []) (mkSchema ["e"; "d"]))
           "e" "d" [1] wf_ex_X eq_refl eq_refl eq_refl Hi Hall eq_refl).
Defined.

(** ** [nonzero] followed by [multi_index_select] *)

Lemma all_indices_bounds sh idx :
  idx ∈ all_indices sh → Forall2 (λ i n, i < n) idx sh.
Proof.
  revert idx. induction sh as [|n sh IH]; intros idx; cbn [all_indices].
  - intros ->%list_elem_of_singleton. constructor.
  - intros (i & (idx' & -> & Hidx)%list_elem_of_fmap & Hi%elem_of_seq)%list_elem_of_bind.
    constructor; [lia|by apply IH].
Qed.

Lemma mapM_norm_index idx sh :
  Forall2 (λ i n, i < n) idx sh →
  mapM (λ '(n, z), norm_index n z) (zip sh (Z.of_nat <$> idx)) = Some idx.
Proof.
  intros Hb. apply mapM_Some.
  induction Hb as [|i n idx sh Hi Hb IH]; [constructor|].
  cbn. constructor; [|exact IH].
  unfold norm_index. rewrite decide_True by lia. by rewrite Nat2Z.id.
Qed.

Lemma block_bind_list {A} (f : A → list Z) k (l : list A) i x :
  Forall (λ x, length (f x) = k) l → l !! i = Some x →
  block k i (l ≫= f) = f x.
Proof.
  unfold block. intros Hl. revert i.
  induction Hl as [|y l Hy Hl IH]; intros i Hi; [done|].
  destruct i as [|i]; cbn in Hi.
  - injection Hi as ->. change ((x :: l) ≫= f) with (f x ++ l ≫= f).
    rewrite Nat.mul_0_l, drop_0. by rewrite take_app_length'.
  - change ((y :: l) ≫= f) with (f y ++ l ≫= f). cbn [Nat.mul].
    rewrite drop_app_ge by lia.
    replace (k + i * k - length (f y)) with (i * k) by lia. by apply IH.
Qed.

Lemma ref_iter_bind {A} (f : A → list Z) sh (l : list A) :
  Forall (λ x, length (f x) = numel sh) l →
  ref_iter (mkTensor (length l :: sh) (l ≫= f)) =
    Ok ((λ x, mkTensor sh (f x)) <$> l).
Proof.
  intros Hl. unfold ref_iter. cbn [tshape tdata]. f_equal.
  apply list_eq_same_length with (length l);
    [by rewrite length_fmap, ?length_seq..|].
  intros i a b Hi Ha Hb.
  apply list_lookup_fmap_Some in Ha as (j & -> & Hj).
  apply lookup_seq in Hj as [-> _]. cbn in Hb.
  apply list_lookup_fmap_Some in Hb as (x & -> & Hx).
  f_equal. by apply block_bind_list.
Qed.

Lemma bind_singleton {A} (l : list A) : l ≫= (λ x, [x]) = l.
Proof. induction l as [|x l IH]; [done|]. cbn. by rewrite IH. Qed.

Lemma ref_tuple_vector (zs : list Z) :
  ref_tuple (mkTensor [length zs] zs) = Ok zs.
Proof.
  unfold ref_tuple.
  rewrite <-(bind_singleton zs) at 2.
  rewrite (ref_iter_bind (λ z, [z]) [] zs) by (by apply Forall_forall).
  cbn [mbind result_bind]. apply mapM_Ok.
  apply Forall2_fmap_l, Forall2_same_length_lookup.
  split; [done|]. intros i x y Hx Hy. cbn. congruence.
Qed.

Lemma ref_getitem_full (t : Tensor) (idx : list nat) :
  length (tdata t) = numel (tshape t) →
  idx ∈ all_indices (tshape t) →
  ref_getitem t (mkTensor [rank t] (Z.of_nat <$> idx)) =
    Ok (mkTensor [] [tget t idx]).
Proof.
  intros Hlen Hidx.
  destruct (all_indices_spec _ _ Hidx) as [Hl Ho].
  unfold ref_getitem.
  replace (rank t) with (length (Z.of_nat <$> idx))
    by (rewrite length_fmap; exact Hl).
  rewrite ref_tuple_vector. cbn [mbind result_bind].
  rewrite length_fmap.
  rewrite decide_True by (unfold rank; lia).
  rewrite (mapM_norm_index idx) by (by apply all_indices_bounds).
  cbn zeta. rewrite drop_ge by lia. cbn [numel foldr].
  unfold tget. do 2 f_equal.
  rewrite <-Hlen in Ho.
  apply lookup_lt_is_Some_2 in Ho as [z Hz].
  rewrite (nth_lookup_Some _ _ _ _ Hz).
  by rewrite (drop_S _ _ _ Hz).
Qed.

Lemma Forall2_positions {A} (names : list A) (md : list nat) :
  NoDup names →
  Forall2 (λ d i, names !! i = Some d) names md →
  md = seq 0 (length names).
Proof.
  intros Hnd Hmd.
  apply list_eq_same_length with (length names);
    [by rewrite length_seq|symmetry; by eapply Forall2_length|].
  intros i x y Hi Hx Hy. apply lookup_seq in Hy as [-> _].
  destruct (Forall2_lookup_r _ _ _ _ _ Hmd Hx) as (d & Hd & Hxd).
  cbn. by eapply NoDup_lookup.
Qed.

Lemma bind_fmap_singleton {A} (g : A → Z) (l : list A) :
  ((λ x, mkTensor [1] [g x]) <$> l) ≫= tdata = g <$> l.
Proof. induction l as [|x l IH]; [done|]. cbn. by rewrite IH. Qed.

Lemma nonzero_entries (t : Tensor) :
  length (tdata t) = numel (tshape t) →
  tget t <$> filter (λ idx, tget t idx ≠ 0%Z) (all_indices (tshape t)) =
  filter (λ z, z ≠ 0%Z) (tdata t).
Proof.
  intros Hlen.
  trans (filter (λ z, z ≠ 0%Z) (tget t <$> all_indices (tshape t))).
  - symmetry. exact (filter_fmap (tget t) (λ z, z ≠ 0%Z) _).
  - f_equal. by apply tabulate_tget.
Qed.

(** X12. The index tensor [nonzero] returns selects, through
    [multi_index_select] over all the names of the tensor, exactly the
    non-zero entries of the tensor in row-major order: on the reference
    engine the composition returns them as a one-dimensional tensor named
    "elementsdim", provided the tensor has a non-zero entry. *)
Theorem nonzero_select (t : NamedTensor) :
  wf t →
  filter (λ z, z ≠ 0%Z) (tdata (_tensor t)) ≠ [] →
  (ix ← nonzero t nonzero_names;
   @multi_index_select torch_ref t (_names (_schema t)) ix) =
  Ok (mkNamedTensor
        (mkTensor [length (filter (λ z, z ≠ 0%Z) (tdata (_tensor t)))]
                  (filter (λ z, z ≠ 0%Z) (tdata (_tensor t))))
        (mkSchema ["elementsdim"])).
Proof.
  intros (Hnd & Hrank & Hlen) Hnz.
  rewrite <-(nonzero_entries _ Hlen) in *.
  set (nz := filter (λ idx, tget (_tensor t) idx ≠ 0%Z)
               (all_indices (tshape (_tensor t)))) in *.
  assert (nz ≠ []) as Hnz' by (intros E; apply Hnz; by rewrite E).
  assert (Forall (λ idx, idx ∈ all_indices (tshape (_tensor t))) nz) as Hin.
  { apply Forall_forall. intros idx Hidx.
    by apply list_elem_of_filter in Hidx as [_ ?]. }
  unfold nonzero. cbn [torch_nonzero torch_refX]. unfold ref_nonzero, values.
  fold nz. cbn [mbind result_bind].
  unfold NamedTensor_init, nonzero_names.
  rewrite decide_True by by_decide. rewrite decide_True by done.
  cbn [mbind result_bind].
  set (ix := mkNamedTensor _ _).
  destruct (mis_pipeline (H:=torch_ref) t (_names (_schema t)) ix
              "elementsdim" "inputdims") as (md & Hmd & _ & ->);
    [done|done| | |done| |done|].
  { unfold shape, ix. cbn. rewrite decide_False by done.
    rewrite decide_True by done. by rewrite Hrank. }
  { unfold shape. rewrite length_zip_with. unfold rank in Hrank. lia. }
  { by apply Forall_forall. }
  cbn zeta in *. apply Forall2_positions in Hmd as ->; [|done].
  rewrite (filter_none (λ i, i ∉ seq 0 (length (_names (_schema t)))))
    by (apply Forall_forall; intros i Hi Hn; by apply Hn).
  rewrite app_nil_r, Hrank. unfold values.
  cbn [permute torch_ref]. rewrite ref_permute_id by done.
  cbn [mbind result_bind iter torch_ref]. unfold ix. cbn [_tensor].
  rewrite (ref_iter_bind (λ idx, Z.of_nat <$> idx) [rank (_tensor t)]).
  2:{ eapply Forall_impl; [exact Hin|]. intros idx Hidx. cbn.
      rewrite length_fmap.
      destruct (all_indices_spec _ _ Hidx) as [-> _]. unfold rank. lia. }
  cbn [mbind result_bind].
  assert (mapM (λ idx, v ← getitem (_tensor t) idx; unsqueeze v 0)
               ((λ idx, mkTensor [rank (_tensor t)] (Z.of_nat <$> idx)) <$> nz)
          = Ok ((λ idx, mkTensor [1] [tget (_tensor t) idx]) <$> nz)) as ->.
  { apply mapM_Ok, Forall2_fmap, Forall_Forall2_diag.
    eapply Forall_impl; [exact Hin|]. intros idx Hidx.
    cbn [getitem torch_ref]. rewrite ref_getitem_full by done.
    reflexivity. }
  cbn [mbind result_bind].
  rewrite (ref_cat_leading _ []).
  2:{ destruct nz; [done|]. discriminate. }
  2:{ apply Forall_fmap, Forall_forall. by intros. }
  cbn [mbind result_bind]. rewrite length_fmap, bind_fmap_singleton.
  rewrite (filter_none (λ n, n ∉ _names (_schema t)))
    by (apply Forall_forall; intros i Hi Hn; by apply Hn).
  unfold ntorch_tensor, NamedTensor_init.
  rewrite decide_True by by_decide. rewrite decide_True by done.
  by rewrite length_fmap.
Qed.

Lemma nonzero_select_witness :
  (wf ex_X ∧ filter (λ z, z ≠ 0%Z) (tdata (_tensor ex_X)) ≠ []) ∧
  (ix ← nonzero ex_X nonzero_names;
   @multi_index_select torch_ref ex_X (_names (_schema ex_X)) ix) =
  Ok (mkNamedTensor
        (mkTensor [length (filter (λ z, z ≠ 0%Z) (tdata (_tensor ex_X)))]
                  (filter (λ z, z ≠ 0%Z) (tdata (_tensor ex_X))))
        (mkSchema ["elementsdim"])).
Proof.
  assert (filter (λ z, z ≠ 0%Z) (tdata (_tensor ex_X)) ≠ []) as Hnz
    by (vm_compute; discriminate).
  split; [split; [apply wf_ex_X|exact Hnz]|].
  exact (nonzero_select ex_X wf_ex_X Hnz).
Defined.

(** ** [stack] followed by [narrow] *)

Lemma stack_ref_Ok_inv (ts : list NamedTensor) (name : name) r :
  Forall wf ts → @stack torch_ref ts name = Ok r →
  ∃ t0 rest,
    ts = t0 :: rest ∧
    Forall (λ t, _names (_schema t) = _names (_schema t0)) ts ∧
    Forall (λ t, tshape (_tensor t) = tshape (_tensor t0)) ts ∧
    (name ∉ _names (_schema t0)) ∧
    r = mkNamedTensor
          (mkTensor (length ts :: tshape (_tensor t0))
                    (ts ≫= λ t, tdata (_tensor t)))
          (mkSchema (name :: _names (_schema t0))).
Proof.
  intros Hwf. destruct ts as [|t0 rest]; [done|]. unfold stack.
  destruct (stack_check_spec rest (_names (_schema t0))) as [[Hn ->]|[_ ->]];
    [|done].
  cbn [mbind result_bind torch_stack torch_ref]. intros Hr.
  apply bind_Ok in Hr as (raw & Hraw & Hr).
  apply NamedTensor_init_Ok in Hr as (Hnd & _ & ->).
  assert (Forall (λ t, tshape (_tensor t) = tshape (_tensor t0)) (t0 :: rest))
    as Hsh.
  { destruct (decide (Forall (λ t, tshape t = tshape (_tensor t0))
                        (values <$> t0 :: rest))) as [Hd|Hd].
    - by apply Forall_fmap in Hd.
    - cbn in Hraw. by rewrite decide_False in Hraw. }
  rewrite (ref_stack_leading _ (tshape (_tensor t0))) in Hraw; [|done|].
  2:{ apply Forall_fmap, Forall_forall. intros t Ht.
      rewrite Forall_forall in Hsh, Hwf.
      destruct (Hwf t Ht) as (_ & _ & Hd). unfold values, compose.
      split; [by apply Hsh|]. rewrite <-(Hsh t Ht). done. }
  injection Hraw as <-. exists t0, rest. split_and!; try done.
  - by constructor.
  - by apply NoDup_cons in Hnd as [? _].
  - rewrite length_fmap. do 3 f_equal. by rewrite list_fmap_bind.
Qed.

(** X9. Stacking and then narrowing the new axis to one position gives
    back the operand at that position: on the reference engine, if
    [stack tensors name] returns [r] for well-formed operands, then
    [narrow r name i 1] returns the [i]-th operand under a leading axis
    [name] of size 1. *)
Theorem stack_narrow (ts : list NamedTensor) (name : name) (r : NamedTensor)
    (i : nat) (t : NamedTensor) :
  Forall wf ts → @stack torch_ref ts name = Ok r → ts !! i = Some t →
  narrow r name (Z.of_nat i) 1 =
    Ok (mkNamedTensor (mkTensor (1 :: tshape (_tensor t)) (tdata (_tensor t)))
                      (mkSchema (name :: _names (_schema t)))).
Proof.
  intros Hwf Hr Hi.
  destruct (stack_ref_Ok_inv _ _ _ Hwf Hr)
    as (t0 & rest & Hts & Hns & Hsh & Hname & ->).
  pose proof (Forall_inv (eq_ind _ (Forall wf) Hwf _ Hts)) as (Hnd & Hrk & _).
  assert (Forall (λ t, length (tdata (_tensor t)) =
                       numel (tshape (_tensor t0))) ts) as Hlen.
  { apply Forall_forall. intros u Hu. rewrite Forall_forall in Hsh, Hwf.
    destruct (Hwf u Hu) as (_ & _ & ->). by rewrite (Hsh u Hu). }
  pose proof (lookup_lt_Some _ _ _ Hi) as Hlt.
  change 1%Z with (Z.of_nat 1).
  rewrite (narrow_ref _ name 0 (length ts) i 1); [| |done|done|lia].
  2:{ split_and!; cbn.
      - by apply NoDup_cons.
      - unfold rank in *. cbn. lia.
      - by rewrite (length_bind_Forall _ _ _ Hlen). }
  cbn [_tensor tshape tdata take drop numel foldr seq mbind list_bind _schema].
  rewrite app_nil_r, Nat.mul_0_l, Nat.add_0_l, Nat.mul_1_l.
  rewrite !drop_0. fold (numel (tshape (_tensor t0))).
  fold (block (numel (tshape (_tensor t0))) i (ts ≫= λ t, tdata (_tensor t))).
  rewrite (block_bind_list _ _ _ _ _ Hlen Hi).
  rewrite Forall_forall in Hsh, Hns.
  pose proof (list_elem_of_lookup_2 _ _ _ Hi) as Ht.
  by rewrite (Hsh t Ht), (Hns t Ht).
Qed.

Lemma stack_narrow_witness :
  (Forall wf [ex_X; ex_X] ∧
   @stack torch_ref [ex_X; ex_X] "b" =
     Ok (mkNamedTensor
           (mkTensor [2; 2; 3] [1; 2; 3; 4; 5; 6; 1; 2; 3; 4; 5; 6]%Z)
           (mkSchema ["b"; "i"; "k"])) ∧
   [ex_X; ex_X] !! 1 = Some ex_X) ∧
  narrow (mkNamedTensor
            (mkTensor [2; 2; 3] [1; 2; 3; 4; 5; 6; 1; 2; 3; 4; 5; 6]%Z)
            (mkSchema ["b"; "i"; "k"])) "b" (Z.of_nat 1) 1 =
    Ok (mkNamedTensor
          (mkTensor (1 :: tshape (_tensor ex_X)) (tdata (_tensor ex_X)))
          (mkSchema ("b" :: _names (_schema ex_X)))).
Proof.
  assert (Forall wf [ex_X; ex_X]) as Hwf
    by (do 2 (constructor; [apply wf_ex_X|]); constructor).
  assert (@stack torch_ref [ex_X; ex_X] "b" =
            Ok (mkNamedTensor
                  (mkTensor [2; 2; 3] [1; 2; 3; 4; 5; 6; 1; 2; 3; 4; 5; 6]%Z)
                  (mkSchema ["b"; "i"; "k"]))) as Hrun
    by (vm_compute; reflexivity).
  split; [by split_and!|].
  exact (stack_narrow [ex_X; ex_X] "b" _ 1 ex_X Hwf Hrun eq_refl).
Defined.

(** ** [cat]: the result on the reference engine *)

Lemma size_at_insert_ne (sh : list nat) d k x :
  k ≠ d → nth k (<[d := x]> sh) 0 = nth k sh 0.
Proof. intros Hk. by rewrite !nth_lookup, list_lookup_insert_ne. Qed.

Lemma size_at_insert (sh : list nat) d x :
  d < length sh → nth d (<[d := x]> sh) 0 = x.
Proof. intros Hd. by rewrite nth_lookup, list_lookup_insert_eq. Qed.

Lemma cat_row_length (ts : list Tensor) sh0 d o :
  d < length sh0 →
  Forall (λ t, <[d := 0]> (tshape t) = <[d := 0]> sh0 ∧
               length (tdata t) = numel (tshape t)) ts →
  o < numel (take d sh0) →
  length (t ← ts; block (numel (drop d (tshape t))) o (tdata t)) =
    sum_list ((λ t, size_at t d) <$> ts) * numel (drop (S d) sh0).
Proof.
  intros Hd Hts Ho. induction Hts as [|t ts [Hsh Hlen] _ IH]; [done|].
  rewrite bind_cons, length_app, IH. cbn [fmap list_fmap sum_list_with].
  unfold id at 1. rewrite Nat.mul_add_distr_r. f_equal.
  assert (length (tshape t) = length sh0) as Hl
    by (by rewrite <-(length_insert (tshape t) d 0), Hsh, length_insert).
  assert (take d (tshape t) = take d sh0) as Htake.
  { rewrite <-(take_insert_ge (tshape t) d d 0), Hsh by lia.
    by rewrite take_insert_ge by lia. }
  assert (drop (S d) (tshape t) = drop (S d) sh0) as Hdrop.
  { rewrite <-(drop_insert_lt (tshape t) (S d) d 0), Hsh by lia.
    by rewrite drop_insert_lt by lia. }
  destruct (lookup_lt_is_Some_2 (tshape t) d) as [n Hn]; [lia|].
  rewrite (size_at_lookup _ _ _ Hn), (drop_S _ _ _ Hn), numel_cons, Hdrop.
  unfold block, id. rewrite length_take, length_drop, Hlen.
  rewrite (numel_split _ _ _ Hn), Htake, Hdrop.
  generalize dependent (numel (take d sh0)).
  generalize (numel (drop (S d) sh0)). intros I O Ho.
  assert (S o ≤ O) as Hle by lia.
  apply (Nat.mul_le_mono_r _ _ (n * I)) in Hle.
  generalize dependent (n * I). intros X HX. cbn [Nat.mul] in HX. lia.
Qed.

Lemma ref_cat_Ok_inv (ts : list Tensor) d raw t0 :
  head ts = Some t0 → ref_cat ts d = Ok raw →
  d < rank t0 ∧
  Forall (λ t, <[d := 0]> (tshape t) = <[d := 0]> (tshape t0)) ts ∧
  raw = mkTensor
          (<[d := sum_list ((λ t, size_at t d) <$> ts)]> (tshape t0))
          (o ← seq 0 (numel (take d (tshape t0)));
           t ← ts;
           block (numel (drop d (tshape t))) o (tdata t)).
Proof.
  destruct ts as [|t ts']; [done|]. intros [= ->].
  remember (t0 :: ts') as ts eqn:Hts. unfold ref_cat. rewrite Hts at 1.
  case_decide as Hfit; [|done]. intros [= <-]. by destruct Hfit.
Qed.

(** X10. What [cat] returns on the reference engine for well-formed
    operands: the operands all carry the names of the result, in the same
    order; they have the sizes of the result on every axis but the one of
    [dim], where the size of the result is the sum of theirs; and the
    result is well-formed. *)
Theorem cat_result (ts : list NamedTensor) (dim : name) (r : NamedTensor) :
  Forall wf ts → @cat torch_ref ts dim = Ok r →
  ∃ d, _names (_schema r) !! d = Some dim ∧
       wf r ∧
       Forall (λ t, _names (_schema t) = _names (_schema r) ∧
                    ∀ k, k ≠ d →
                         size_at (_tensor t) k = size_at (_tensor r) k) ts ∧
       size_at (_tensor r) d =
         sum_list ((λ t, size_at (_tensor t) d) <$> ts).
Proof.
  intros Hwf. destruct ts as [|t0 rest]; [done|]. unfold cat.
  intros Hr. apply bind_Ok in Hr as (d & Hd & Hr).
  apply Schema_get_Ok, index_of_Some in Hd.
  destruct (cat_check_spec rest (_names (_schema t0))) as [[Hn Hc]|[_ Hc]];
    rewrite Hc in Hr; [|done].
  cbn [mbind result_bind torch_cat torch_ref] in Hr.
  apply bind_Ok in Hr as (raw & Hraw & Hr).
  rewrite _new_no_updates in Hr.
  apply NamedTensor_init_Ok in Hr as (Hnd & Hrk & ->).
  assert (head (values <$> t0 :: rest) = Some (_tensor t0)) as Hhd
    by reflexivity.
  apply (ref_cat_Ok_inv _ d raw _ Hhd) in Hraw as (Hdr & Hfit & ->).
  assert (Forall (λ t, <[d := 0]> (tshape (_tensor t)) =
                         <[d := 0]> (tshape (_tensor t0))) (t0 :: rest))
    as Hfit'.
  { apply (proj1 (Forall_fmap values
                    (λ t, <[d := 0]> (tshape t) = _) (t0 :: rest))).
    exact Hfit. }
  clear Hfit. unfold rank in *. set (sz := sum_list _).
  pose proof (Forall_inv Hwf) as (_ & _ & Hlen0).
  assert (Forall (λ t, <[d := 0]> (tshape t) =
                         <[d := 0]> (tshape (_tensor t0)) ∧
                       length (tdata t) = numel (tshape t))
                 (values <$> t0 :: rest)) as Hts.
  { apply Forall_fmap, Forall_forall. intros t Ht.
    rewrite Forall_forall in Hfit', Hwf.
    split; [exact (Hfit' t Ht)|]. by destruct (Hwf t Ht) as (_ & _ & ?). }
  exists d. unfold wf, rank. cbn [_schema _names _tensor].
  split_and!; try done.
  - cbn [tshape tdata].
    rewrite (length_bind_Forall _ _ (sz * numel (drop (S d) (tshape (_tensor t0))))).
    + rewrite length_seq.
      destruct (lookup_lt_is_Some_2 (tshape (_tensor t0)) d) as [n Hdn];
        [lia|].
      assert (<[d := sz]> (tshape (_tensor t0)) !! d = Some sz) as Hsz
        by (by rewrite list_lookup_insert_eq).
      rewrite (numel_split _ _ _ Hsz), numel_take_insert.
      by rewrite drop_insert_lt by lia.
    + apply Forall_forall. intros o Ho%elem_of_seq.
      apply cat_row_length; [lia|done|lia].
  - apply Forall_forall. intros t Ht.
    assert (_names (_schema t) = _names (_schema t0)) as Hnt.
    { apply elem_of_cons in Ht as [->|Ht]; [done|].
      rewrite Forall_forall in Hn. by apply Hn. }
    split; [done|]. intros k Hk. unfold size_at. cbn [tshape].
    rewrite size_at_insert_ne by done.
    rewrite Forall_forall in Hfit'.
    rewrite <-(size_at_insert_ne (tshape (_tensor t)) d k 0) by done.
    rewrite (Hfit' t Ht). by rewrite size_at_insert_ne.
  - unfold size_at at 1. cbn [tshape]. rewrite size_at_insert by lia.
    unfold sz. by rewrite <-list_fmap_compose.
Qed.

Lemma cat_result_witness :
  (Forall wf [ex_X; ex_X] ∧
   @cat torch_ref [ex_X; ex_X] "i" =
     Ok (mkNamedTensor
           (mkTensor [4; 3] [1; 2; 3; 4; 5; 6; 1; 2; 3; 4; 5; 6]%Z)
           (mkSchema ["i"; "k"]))) ∧
  ∃ d, ["i"; "k"] !! d = Some "i" ∧
       wf (mkNamedTensor
             (mkTensor [4; 3] [1; 2; 3; 4; 5; 6; 1; 2; 3; 4; 5; 6]%Z)
             (mkSchema ["i"; "k"])) ∧
       Forall (λ t, _names (_schema t) = ["i"; "k"] ∧
                    ∀ k, k ≠ d →
                         size_at (_tensor t) k = size_at (mkTensor [4; 3] [1; 2; 3; 4; 5; 6; 1; 2; 3; 4; 5; 6]%Z) k)
              [ex_X; ex_X] ∧
       size_at (mkTensor [4; 3] [1; 2; 3; 4; 5; 6; 1; 2; 3; 4; 5; 6]%Z) d =
         sum_list ((λ t, size_at (_tensor t) d) <$> [ex_X; ex_X]).
Proof.
  assert (Forall wf [ex_X; ex_X]) as Hwf
    by (do 2 (constructor; [apply wf_ex_X|]); constructor).
  assert (@cat torch_ref [ex_X; ex_X] "i" =
            Ok (mkNamedTensor
                  (mkTensor [4; 3] [1; 2; 3; 4; 5; 6; 1; 2; 3; 4; 5; 6]%Z)
                  (mkSchema ["i"; "k"]))) as Hrun
    by (vm_compute; reflexivity).
  split; [by split|].
  exact (cat_result [ex_X; ex_X] "i" _ Hwf Hrun).
Defined.

(** ** [multi_index_select]: the shape of the result *)

Lemma norm_index_lt n z i : norm_index n z = Some i → i < n.
Proof. unfold norm_index. repeat case_decide; intros [= <-]; lia. Qed.

Lemma norm_offset_bound sh zs ns :
  length zs ≤ length sh →
  mapM (λ '(n, z), norm_index n z) (zip sh zs) = Some ns →
  offset sh ns + numel (drop (length zs) sh) ≤ numel sh.
Proof.
  revert zs ns. induction sh as [|n sh IH]; intros zs ns Hl Hns.
  - destruct zs; [|cbn in Hl; lia]. injection Hns as <-. done.
  - destruct zs as [|z zs].
    + injection Hns as <-. cbn. lia.
    + apply mapM_Some in Hns.
      apply Forall2_cons_inv_l in Hns as (i & ns' & Hi & Hns & ->).
      apply mapM_Some in Hns. apply norm_index_lt in Hi.
      cbn [length] in Hl. apply IH in Hns; [|lia].
      cbn [offset length drop]. rewrite numel_cons.
      change (drop (S (length zs)) (n :: sh)) with (drop (length zs) sh).
      assert (S i ≤ n) as Hle by lia.
      apply (Nat.mul_le_mono_r _ _ (numel sh)) in Hle. cbn [Nat.mul] in Hle.
      lia.
Qed.

Lemma ref_tuple_length idx m sh zs :
  tshape idx = m :: sh → ref_tuple idx = Ok zs → length zs = m.
Proof.
  intros Hsh. unfold ref_tuple, ref_iter. rewrite Hsh.
  cbn [mbind result_bind]. intros Hzs%mapM_Ok%Forall2_length.
  by rewrite length_fmap, length_seq in Hzs.
Qed.

Lemma ref_getitem_Ok_shape (t idx : Tensor) m sh v :
  length (tdata t) = numel (tshape t) →
  tshape idx = m :: sh → ref_getitem t idx = Ok v →
  tshape v = drop m (tshape t) ∧ length (tdata v) = numel (drop m (tshape t)).
Proof.
  intros Hlen Hsh Hv. unfold ref_getitem in Hv.
  apply bind_Ok in Hv as (zs & Hzs & Hv).
  apply (ref_tuple_length _ _ _ _ Hsh) in Hzs as <-.
  case_decide as Hle; [|done].
  destruct (mapM _ _) as [ns|] eqn:Hns; [|done].
  injection Hv as <-. cbn [tshape tdata]. split; [done|].
  apply norm_offset_bound in Hns; [|done].
  rewrite length_take, length_drop, Hlen. lia.
Qed.

Lemma filter_zip_aligned {A B C} (P : A → Prop) (Q : B → Prop)
    `{∀ a, Decision (P a)} `{∀ b, Decision (Q b)} (f : B → C) l k :
  Forall2 (λ a b, P a ↔ Q b) l k →
  zip (filter P l) (f <$> filter Q k) = filter (λ p, P p.1) (zip l (f <$> k)).
Proof.
  induction 1 as [|a b l k Hab _ IH]; [done|].
  cbn [fmap list_fmap zip_with]. rewrite !filter_cons. cbn [fst].
  destruct (decide (P a)) as [Ha|Ha].
  - rewrite decide_True by tauto. cbn. by rewrite IH.
  - rewrite decide_False by tauto. done.
Qed.

(** X16. On the reference engine, for a well-formed tensor and index
    tensor, the [shape] of what [multi_index_select] returns is the shape
    of the tensor without the entries of [dims], in their order, behind the
    first entry of the shape of [indices] (its first name with its number
    of rows); and the result is well-formed. *)
Theorem mis_result_shape (tensor : NamedTensor) (dims : list name)
    (indices r : NamedTensor) :
  wf tensor → wf indices →
  @multi_index_select torch_ref tensor dims indices = Ok r →
  wf r ∧
  ∃ e rows,
    head (shape indices) = Some (e, rows) ∧
    shape r = (e, rows) :: filter (λ p, p.1 ∉ dims) (shape tensor).
Proof.
  intros (Hnd & Hrk & Hlen) (Hndi & Hrki & _) Hr.
  destruct (mis_Ok_checks _ _ _ _ Hr)
    as (e & index_dim & rest & Hin & Hsz & Hle & Hdims & Hall).
  destruct (mis_pipeline (H:=torch_ref) tensor dims indices e index_dim)
    as (md & Hmd & Hperm & Heq); [by rewrite Hin..|done|done|done|done|done|].
  rewrite Heq in Hr. clear Heq. cbn zeta in *.
  apply bind_Ok in Hr as (vals & Hvals & Hr).
  apply bind_Ok in Hr as (rows & Hrows & Hr).
  apply bind_Ok in Hr as (us & Hus & Hr).
  apply bind_Ok in Hr as (raw & Hraw & Hr).
  apply NamedTensor_init_Ok in Hr as (Hndr & Hrkr & ->).
  (* the permuted tensor *)
  cbn [permute torch_ref] in Hvals. unfold ref_permute, values in Hvals.
  rewrite decide_True in Hvals
    by (apply Permutation_seq_valid; by rewrite <-Hrk).
  injection Hvals as <-.
  (* the rows of the index tensor *)
  cbn [iter torch_ref] in Hrows. unfold ref_iter, values in Hrows.
  unfold rank in Hrki. rewrite Hin in Hrki.
  destruct (tshape (_tensor indices)) as [|n [|m shi]] eqn:Hshi; [done|done|].
  injection Hrows as <-.
  assert (m = length dims) as ->.
  { unfold shape in Hsz. rewrite Hin, Hshi in Hsz. cbn in Hsz.
    rewrite Hin in Hndi. apply NoDup_cons in Hndi as [Hne _].
    rewrite decide_False in Hsz by (intros ->; apply Hne, list_elem_of_here).
    rewrite decide_True in Hsz by done. by injection Hsz. }
  (* each selected sub-tensor *)
  set (perm := md ++ filter (λ i, i ∉ md)
                       (seq 0 (length (_names (_schema tensor))))) in *.
  set (vals := tabulate _ _) in *.
  set (shv := drop (length dims) (tshape vals)).
  assert (Forall (λ u, tshape u = 1 :: shv ∧ length (tdata u) = numel shv) us)
    as Hshape.
  { apply mapM_Ok in Hus. apply Forall_forall. intros u Hu.
    apply list_elem_of_lookup in Hu as [i Hi].
    destruct (Forall2_lookup_r _ _ _ _ _ Hus Hi) as (row & Hrow & Hu).
    apply list_lookup_fmap_Some in Hrow as (j & -> & _).
    apply bind_Ok in Hu as (v & Hv & Hu).
    cbn [getitem unsqueeze torch_ref] in Hv, Hu.
    apply (ref_getitem_Ok_shape _ _ (length dims) shi) in Hv as [Hv1 Hv2];
      [|apply length_tabulate|done].
    unfold ref_unsqueeze in Hu. rewrite decide_True in Hu by lia.
    injection Hu as <-. cbn [tshape tdata]. by rewrite drop_0, Hv1. }
  assert (length us = n) as Hn.
  { apply mapM_Ok, Forall2_length in Hus.
    by rewrite length_fmap, length_seq in Hus. }
  cbn [torch_cat torch_ref] in Hraw.
  assert (us ≠ []) as Hne by (by intros ->).
  rewrite (ref_cat_leading _ shv Hne Hshape) in Hraw. injection Hraw as <-.
  split.
  - split_and!; [done|done|]. cbn [_tensor tdata tshape].
    rewrite (length_bind_Forall _ _ (numel shv)); [done|].
    eapply Forall_impl; [exact Hshape|]. by intros u [_ ?].
  - exists e, n. unfold shape at 1. rewrite Hin, Hshi. split; [done|].
    unfold shape. cbn [_tensor _schema _names tshape zip_with]. rewrite Hn.
    f_equal. unfold shv, vals, tabulate, perm. cbn [tshape].
    pose proof (Forall2_length _ _ _ Hmd) as Hlmd.
    rewrite fmap_app. rewrite drop_app_length' by (by rewrite length_fmap).
    rewrite (filter_zip_aligned (λ n, n ∉ dims) (λ i, i ∉ md)
               (size_at (_tensor tensor)) (_names (_schema tensor))
               (seq 0 (length (_names (_schema tensor))))).
    { rewrite Hrk. unfold size_at, rank. by rewrite fmap_nth_seq. }
    apply Forall2_same_length_lookup. split; [by rewrite length_seq|].
    intros i a b Ha Hb. apply lookup_seq in Hb as [-> _]. cbn.
    rewrite (match_dims_elem (_names (_schema tensor)) dims md Hnd); [done| |done].
    eapply Forall2_impl; [exact Hmd|]. intros d j Hj. cbn in Hj.
    by apply index_of_NoDup.
Qed.

Lemma mis_result_shape_witness :
  (wf ex_X ∧ wf ex_rows ∧
   @multi_index_select torch_ref ex_X ["i"] ex_rows =
     Ok (mkNamedTensor (mkTensor [2; 3] [4; 5; 6; 1; 2; 3]%Z)
                       (mkSchema ["e"; "k"]))) ∧
  wf (mkNamedTensor (mkTensor [2; 3] [4; 5; 6; 1; 2; 3]%Z)
                    (mkSchema ["e"; "k"])) ∧
  ∃ e rows,
    head (shape ex_rows) = Some (e, rows) ∧
    shape (mkNamedTensor (mkTensor [2; 3] [4; 5; 6; 1; 2; 3]%Z)
                         (mkSchema ["e"; "k"])) =
      (e, rows) :: filter (λ p, p.1 ∉ ["i"]) (shape ex_X).
Proof.
  assert (wf ex_rows) as Hwf by (split_and!; [by_decide|done|done]).
  assert (@multi_index_select torch_ref ex_X ["i"] ex_rows =
            Ok (mkNamedTensor (mkTensor [2; 3] [4; 5; 6; 1; 2; 3]%Z)
                              (mkSchema ["e"; "k"]))) as Hrun
    by (vm_compute; reflexivity).
  split; [split_and!; [apply wf_ex_X|done|done]|].
  exact (mis_result_shape ex_X ["i"] ex_rows _ wf_ex_X Hwf Hrun).
Defined.

(** ** [nonzero]: the shape of the result *)

(** X11. With two distinct names, [nonzero] on the reference engine returns
    a well-formed tensor whose [shape] maps the first name to the number of
    non-zero entries of the tensor and the second to the number of
    dimensions of the tensor. *)
Theorem nonzero_shape (t : NamedTensor) (n0 n1 : name) :
  wf t → n0 ≠ n1 →
  ∃ r, nonzero t [n0; n1] = Ok r ∧ wf r ∧
       shape r =
         [(n0, length (filter (λ z, z ≠ 0%Z) (tdata (_tensor t))));
          (n1, length (_names (_schema t)))].
Proof.
  intros (Hnd & Hrk & Hlen) Hne.
  unfold nonzero. cbn [torch_nonzero torch_refX]. unfold ref_nonzero, values.
  cbn [mbind result_bind].
  set (nz := filter _ _).
  assert (NoDup [n0; n1]) as Hnames.
  { apply NoDup_cons. split; [by intros ->%list_elem_of_singleton|].
    apply NoDup_singleton. }
  eexists. split; [|split].
  - apply NamedTensor_init_Ok. split_and!; [done|done|reflexivity].
  - split_and!; [done|done|]. cbn [_tensor tdata tshape].
    rewrite (length_bind_Forall _ _ (rank (_tensor t))).
    { unfold numel. cbn. lia. }
    apply Forall_forall. intros idx [_ Hidx]%list_elem_of_filter.
    rewrite length_fmap. by destruct (all_indices_spec _ _ Hidx) as [-> _].
  - unfold shape. cbn. rewrite Hrk. do 3 f_equal.
    rewrite <-(nonzero_entries _ Hlen). by rewrite length_fmap.
Qed.

Lemma nonzero_shape_witness :
  (wf ex_X ∧ "elementsdim" ≠ "inputdims") ∧
  ∃ r, nonzero ex_X ["elementsdim"; "inputdims"] = Ok r ∧ wf r ∧
       shape r =
         [("elementsdim",
           length (filter (λ z, z ≠ 0%Z) (tdata (_tensor ex_X))));
          ("inputdims", length (_names (_schema ex_X)))].
Proof.
  assert ("elementsdim" ≠ "inputdims") as Hne by discriminate.
  split; [by split; [apply wf_ex_X|]|].
  exact (nonzero_shape ex_X "elementsdim" "inputdims" wf_ex_X Hne).
Defined.

(** ** [narrow] followed by [narrow] *)

Lemma take_drop_within {A} (l : list A) a b K :
  b + a ≤ K → take a (drop b (take K l)) = take a (drop b l).
Proof.
  intros Hle. rewrite !take_drop_commute, take_take.
  by replace ((b + a) `min` K) with (b + a) by lia.
Qed.

Lemma sub_block (f : nat → list Z) K m o a b :
  (∀ i, i < m → length (f i) = K) → o < m → b + a ≤ K →
  take a (drop (o * K + b) (i ← seq 0 m; f i)) = take a (drop b (f o)).
Proof.
  intros Hlen Ho Hle. rewrite <-drop_drop.
  rewrite <-(take_drop_within (drop (o * K) _) a b K Hle).
  fold (block K o (i ← seq 0 m; f i)).
  rewrite (block_bind f K 0 m o); [done| |done].
  intros i Hi. apply Hlen. lia.
Qed.

(** X8. Two slices of the same axis compose: on the reference engine, for
    a well-formed operand, narrowing the axis [dim] to the [k] entries from
    [s] on and the result to the [k'] entries from [s'] on gives what
    narrowing the operand to the [k'] entries from [s + s'] on gives. *)
Theorem narrow_narrow (t : NamedTensor) (dim : name) (d n s k s' k' : nat) :
  wf t → _names (_schema t) !! d = Some dim →
  tshape (_tensor t) !! d = Some n → s + k ≤ n → s' + k' ≤ k →
  (a ← narrow t dim (Z.of_nat s) (Z.of_nat k);
   narrow a dim (Z.of_nat s') (Z.of_nat k')) =
  narrow t dim (Z.of_nat (s + s')) (Z.of_nat k').
Proof.
  intros Hwf Hdim Hd Hsk Hsk'.
  rewrite (narrow_ref t dim d n s k Hwf Hdim Hd Hsk).
  rewrite (narrow_ref t dim d n (s + s') k' Hwf Hdim Hd) by lia.
  cbn [mbind result_bind].
  destruct Hwf as (Hnd & Hrk & Hlen).
  pose proof (lookup_lt_Some _ _ _ Hd) as Hdlt.
  assert (<[d := k]> (tshape (_tensor t)) !! d = Some k) as Hdk
    by (by rewrite list_lookup_insert_eq).
  rewrite (narrow_ref _ dim d k s' k'); [|split_and!|done|done|done].
  - cbn [_tensor _schema tshape tdata].
    rewrite list_insert_insert_eq, numel_take_insert.
    rewrite drop_insert_lt by lia.
    do 3 f_equal. apply Forall_bind_ext, Forall_forall.
    intros o Ho%elem_of_seq.
    set (I := numel (drop (S d) (tshape (_tensor t)))).
    replace ((o * k + s') * I) with (o * (k * I) + s' * I) by lia.
    rewrite (sub_block _ (k * I) _ o); [| |lia|nia].
    + rewrite take_drop_within by nia. rewrite drop_drop. do 2 f_equal. lia.
    + intros i Hi. by apply (length_narrow_chunk _ d n Hlen Hd).
  - done.
  - unfold rank in *. cbn. by rewrite length_insert.
  - cbn [_tensor tdata tshape].
    by apply (length_ref_narrow_data _ d n Hlen Hd).
Qed.

Lemma narrow_narrow_witness :
  (wf ex_X ∧ _names (_schema ex_X) !! 1 = Some "k" ∧
   tshape (_tensor ex_X) !! 1 = Some 3 ∧ 1 + 2 ≤ 3 ∧ 1 + 1 ≤ 2) ∧
  (a ← narrow ex_X "k" (Z.of_nat 1) (Z.of_nat 2);
   narrow a "k" (Z.of_nat 1) (Z.of_nat 1)) =
  narrow ex_X "k" (Z.of_nat (1 + 1)) (Z.of_nat 1).
Proof.
  assert (1 + 2 ≤ 3) as H1 by lia.
  assert (1 + 1 ≤ 2) as H2 by lia.
  split; [split_and!; [apply wf_ex_X|reflexivity|reflexivity|lia|lia]|].
  exact (narrow_narrow ex_X "k" 1 3 1 2 1 1 wf_ex_X eq_refl eq_refl H1 H2).
Defined.
